(** * DoubleCountSanityCheck: hits associated to more than one PFParticle

    A shallow embedding of [lar_pandora::DoubleCountSanityCheck::analyze]
    (larpandora/LArPandoraAnalysis/DoubleCountSanityCheck_module.cc) and the
    properties of its two loops: the one that builds [hitToPFParticlesMap]
    from the PFParticle->Cluster and Cluster->Hit associations, and the one
    that scans the hit collection and counts the hits whose entry holds more
    than one PFParticle.

    What is modelled, and how:
    - [art::Ptr<T>] is a product id with a key; two Ptrs are equal when both
      agree, which is the equality [std::unordered_map] uses on its keys.
    - [art::Handle<std::vector<T>>] is a product id with the vector; the
      records themselves ([recob::Hit] and the like) are never inspected, so
      their types are parameters.  The three [getByLabel] calls are taken to
      have found their products.
    - [art::FindManyP<T>] is the vector of vectors of Ptrs it holds; [at] is
      the bounds-checked access of [std::vector] and throws
      [std::out_of_range].
    - [unsigned int] values are integers reduced modulo 2^32; [std::size_t]
      values are sizes of vectors that exist in memory and are naturals.
      The first loop compares its [unsigned int] index with a [std::size_t]:
      on a PFParticle collection of at most [UINT_MAX] elements the index
      visits every element once; on a larger collection the index wraps to
      zero and the loop of the source does not end.  [first_loop] and
      [analyze_source] are the loop and the function with that index;
      [hitToPFParticlesMap] and [analyze] run over the indices of the
      collection.  The two agree whenever the source ends
      ([analyze_source_sound]) and the source ends when the collection fits
      [unsigned int] ([analyze_source_fits]).  Every theorem about [analyze]
      on an arbitrary event has the hypothesis that the PFParticle
      collection fits [unsigned int].
      The second loop runs up to [nHits], the size of the hit collection
      converted to [unsigned int].
    - [std::cout] is the list of lines written, the exception that leaves
      [analyze] (if any) is its status. *)

From Stdlib Require Import ZArith Lia.
From stdpp Require Import gmap list strings pretty.

(** ** art::Ptr, art::Handle, art::FindManyP *)

Definition ProductID := nat.

Record Ptr := mkPtr { ptr_id : ProductID; key : nat }.

#[global] Instance Ptr_eq_dec : EqDecision Ptr.
Proof. solve_decision. Defined.

#[global] Instance Ptr_countable : Countable Ptr :=
  inj_countable' (λ p, (ptr_id p, key p)) (λ q, mkPtr q.1 q.2)
                 (λ p, match p with mkPtr _ _ => eq_refl end).

Record Handle (T : Type) := mkHandle { id : ProductID; product : list T }.
Arguments mkHandle {T} _ _.
Arguments id {T} _.
Arguments product {T} _.

(** [art::Ptr<T>(handle, i)] *)
Definition Ptr_of {T} (h : Handle T) (i : nat) : Ptr := mkPtr (id h) i.

Abbreviation FindManyP := (list (list Ptr)).

(** ** Exceptions *)

Inductive exception :=
| out_of_range
| logic_error (what : string).

#[global] Instance exception_eq_dec : EqDecision exception.
Proof. solve_decision. Defined.

Inductive result (A : Type) :=
| Ok (a : A)
| Throw (e : exception).
Arguments Ok {A} _.
Arguments Throw {A} _.

#[global] Instance result_ret : MRet result := λ A a, Ok a.

#[global] Instance result_bind : MBind result := λ A B k r,
  match r with
  | Ok a => k a
  | Throw e => Throw e
  end.

(** A loop over a container whose body may throw: the first exception leaves
    the loop. *)
Fixpoint for_each {A S} (body : S → A → result S) (s : S) (l : list A) : result S :=
  match l with
  | [] => Ok s
  | a :: l' => s' ← body s a ; for_each body s' l'
  end.

(** [FindManyP::at(i)] *)
Definition at_ (assoc : FindManyP) (i : nat) : result (list Ptr) :=
  match assoc !! i with
  | Some v => Ok v
  | None => Throw out_of_range
  end.

(** ** unsigned int *)

Definition UINT_MAX : Z := 4294967295.

(** conversion to [unsigned int], and the result of its arithmetic *)
Definition to_uint (z : Z) : Z := (z mod (UINT_MAX + 1))%Z.

Definition fits_uint (n : nat) : Prop := (Z.of_nat n ≤ UINT_MAX)%Z.

(** ** std::unordered_map< art::Ptr<recob::Hit>, std::vector< art::Ptr<recob::PFParticle> > > *)

Abbreviation HitMap := (gmap Ptr (list Ptr)).

(** The vector stored for a hit, empty when the hit has no entry. *)
Definition entry (m : HitMap) (pHit : Ptr) : list Ptr := default [] (m !! pHit).

(** [m[pHit]]: the entry, which is created empty when it is missing. *)
Definition subscript (m : HitMap) (pHit : Ptr) : list Ptr * HitMap :=
  match m !! pHit with
  | Some v => (v, m)
  | None => ([], <[pHit := []]> m)
  end.

(** [m[pHit].push_back(pPFParticle)] *)
Definition push_back_at (pPFParticle : Ptr) (m : HitMap) (pHit : Ptr) : HitMap :=
  let '(v, m') := subscript m pHit in <[pHit := v ++ [pPFParticle]]> m'.

(** ** What analyze writes and how it ends *)

Inductive line :=
| HitLine (hitKey : nat) (nPFParticles : nat)
| SummaryLine (nHits nMultiAssociatedHits : Z).

#[global] Instance line_eq_dec : EqDecision line.
Proof. solve_decision. Defined.

(** The text of a line, without its [std::endl]. *)
Definition render (l : line) : string :=
  match l with
  | HitLine k n => "Hit " +:+ pretty k +:+ " - nPFParticles = " +:+ pretty n
  | SummaryLine n k =>
      "Of " +:+ pretty n +:+ ", " +:+ pretty k +:+
      " were associated to more than one PFParticle"
  end.

Record Outcome := mkOutcome { cout : list line; status : result unit }.

Definition MultiAssociationViolation : exception :=
  logic_error "Found hits with multiple associated PFParticles!".

(** State of the second loop: the map (which [operator[]] may extend), the
    lines written so far and the counter. *)
Record AuditState := mkAudit {
  audit_map : HitMap;
  audit_out : list line;
  nMultiAssociatedHits : Z
}.

Section Analyze.
Context {PFParticle Cluster Hit : Type}.

(** The event, as far as [analyze] reads it. *)
Record Event := mkEvent {
  pfParticleHandle : Handle PFParticle;
  clusterHandle : Handle Cluster;
  hitHandle : Handle Hit;
  pfParticleToClusterAssoc : FindManyP;
  clusterToHitAssoc : FindManyP
}.

Variable evt : Event.

(** *** First loop: the mapping from hits to PFParticles *)

(** innermost loop, over the hits of one cluster *)
Definition add_hits (pPFParticle : Ptr) (m : HitMap) (hits : list Ptr) : HitMap :=
  foldl (push_back_at pPFParticle) m hits.

(** middle loop, over the clusters of one PFParticle *)
Definition add_clusters (pPFParticle : Ptr) (m : HitMap) (clusters : list Ptr)
  : result HitMap :=
  for_each (λ m pCluster,
              hits ← at_ (clusterToHitAssoc evt) (key pCluster) ;
              Ok (add_hits pPFParticle m hits))
           m clusters.

(** body of the outer loop *)
Definition add_pfparticle (m : HitMap) (i : nat) : result HitMap :=
  let pPFParticle := Ptr_of (pfParticleHandle evt) i in
  clusters ← at_ (pfParticleToClusterAssoc evt) (key pPFParticle) ;
  add_clusters pPFParticle m clusters.

(** outer loop: [i] runs over the indices of the PFParticle collection.
    This is the loop of the source for a collection of at most [UINT_MAX]
    PFParticles ([fits_uint]); beyond that the [unsigned int] index of the
    source wraps and its loop does not end, so the theorems below assume
    [fits_uint (length (product (pfParticleHandle evt)))]. *)
Definition hitToPFParticlesMap : result HitMap :=
  for_each add_pfparticle ∅ (seq 0 (length (product (pfParticleHandle evt)))).

(** *** Second loop: the number of PFParticles of each hit *)

Definition nHits : Z := to_uint (Z.of_nat (length (product (hitHandle evt)))).

Definition audit_hit (s : AuditState) (i : nat) : AuditState :=
  let pHit := Ptr_of (hitHandle evt) i in
  let '(associatedPFParticles, m') := subscript (audit_map s) pHit in
  let nPFParticles := length associatedPFParticles in
  let out := audit_out s ++ [HitLine (key pHit) nPFParticles] in
  if decide (nPFParticles ≤ 1)
  then mkAudit m' out (nMultiAssociatedHits s)
  else mkAudit m' out (to_uint (nMultiAssociatedHits s + 1)%Z).

Definition audit (m : HitMap) : AuditState :=
  foldl audit_hit (mkAudit m [] 0%Z) (seq 0 (Z.to_nat nHits)).

Definition analyze : Outcome :=
  match hitToPFParticlesMap with
  | Throw e => mkOutcome [] (Throw e)
  | Ok m =>
      let s := audit m in
      let out := audit_out s ++ [SummaryLine nHits (nMultiAssociatedHits s)] in
      if decide (nMultiAssociatedHits s ≠ 0%Z)
      then mkOutcome out (Throw MultiAssociationViolation)
      else mkOutcome out (Ok ())
  end.

End Analyze.

(** ** The result of the check, read off what [analyze] wrote *)

Definition summary (o : Outcome) : option (Z * Z) :=
  match last (cout o) with
  | Some (SummaryLine n k) => Some (n, k)
  | _ => None
  end.

Definition totalHits (o : Outcome) : option Z := fst <$> summary o.
Definition overAssociatedHits (o : Outcome) : option Z := snd <$> summary o.

Definition perHitDiagnostics (o : Outcome) : list (nat * nat) :=
  omap (λ l, match l with HitLine k n => Some (k, n) | _ => None end) (cout o).

(** The number of distinct PFParticles in a hit's vector. *)
Definition distinct_pfparticles (v : list Ptr) : nat := length (remove_dups v).

(** ** The derived relation, stated from the associations

    This is the relation as the specification words it, not as the loop
    builds it: the PFParticles that reach a hit, in the order the first loop visits
    them: PFParticles by index, the clusters of each in the order of their
    association, the hits of each cluster in the order of theirs; one
    occurrence for every visit. *)

Section Traversal.
Context {PFParticle Cluster Hit : Type}.
Variable evt : @Event PFParticle Cluster Hit.

Definition clusters_of (i : nat) : list Ptr :=
  default [] (pfParticleToClusterAssoc evt !! i).

Definition hits_of (pCluster : Ptr) : list Ptr :=
  default [] (clusterToHitAssoc evt !! key pCluster).

Definition visits_in_hits (p pHit : Ptr) (hits : list Ptr) : list Ptr :=
  h ← hits; if decide (h = pHit) then [p] else [].

Definition visits_in_clusters (p pHit : Ptr) (clusters : list Ptr) : list Ptr :=
  c ← clusters; visits_in_hits p pHit (hits_of c).

Definition visits_upto (n : nat) (pHit : Ptr) : list Ptr :=
  i ← seq 0 n;
  visits_in_clusters (Ptr_of (pfParticleHandle evt) i) pHit (clusters_of i).

Definition visits (pHit : Ptr) : list Ptr :=
  visits_upto (length (product (pfParticleHandle evt))) pHit.

(** Every [at] of the first loop is within range. *)
Definition cluster_in_range (pCluster : Ptr) : Prop :=
  key pCluster < length (clusterToHitAssoc evt).

Definition pfparticle_in_range (i : nat) : Prop :=
  i < length (pfParticleToClusterAssoc evt) ∧
  Forall cluster_in_range (clusters_of i).

Definition in_range : Prop :=
  Forall pfparticle_in_range (seq 0 (length (product (pfParticleHandle evt)))).

#[global] Instance in_range_dec : Decision in_range.
Proof. unfold in_range, pfparticle_in_range, cluster_in_range. apply _. Defined.

(** The hits of the collection that the second loop counts. *)
Definition is_multi (m : HitMap) (i : nat) : Prop :=
  1 < length (entry m (Ptr_of (hitHandle evt) i)).

#[global] Instance is_multi_dec m i : Decision (is_multi m i).
Proof. unfold is_multi. apply _. Defined.

Definition hit_line (m : HitMap) (i : nat) : line :=
  HitLine i (length (entry m (Ptr_of (hitHandle evt) i))).

Definition scanned : list nat := seq 0 (Z.to_nat (nHits evt)).

Definition multi_count (m : HitMap) : nat :=
  length (filter (is_multi m) scanned).

End Traversal.

(** No vector stored by [push_back_at] is empty. *)
Definition no_empty_entry (m : HitMap) : Prop := ∀ h, m !! h ≠ Some [].

(** ** Inputs compared *)

Section Inputs.
Context {PFParticle Cluster Hit : Type}.
Implicit Types evt : @Event PFParticle Cluster Hit.

(** A [FindManyP] made from a handle has one row for each element of the
    collection of that handle. *)
Definition one_row_per_pfparticle evt : Prop :=
  length (pfParticleToClusterAssoc evt) = length (product (pfParticleHandle evt)).




(** A Ptr to an element of the hit collection that the second loop scans. *)
Definition hit_in_collection evt (pHit : Ptr) : Prop :=
  ptr_id pHit = id (hitHandle evt) ∧ key pHit < length (product (hitHandle evt)).

#[global] Instance hit_in_collection_dec evt pHit :
  Decision (hit_in_collection evt pHit).
Proof. unfold hit_in_collection. apply _. Defined.

(** Some cluster is associated to a hit that is not in the collection. *)
Definition stray_hit_reference evt : Prop :=
  ∃ hits pHit, hits ∈ clusterToHitAssoc evt ∧ pHit ∈ hits ∧
               ¬ hit_in_collection evt pHit.

(** The event with those associations taken out. *)
Definition without_stray_hits evt : Event :=
  mkEvent (pfParticleHandle evt) (clusterHandle evt) (hitHandle evt)
          (pfParticleToClusterAssoc evt)
          (filter (hit_in_collection evt) <$> clusterToHitAssoc evt).

End Inputs.

(** ** The output stated from the associations, and events changed *)

Section Variants.
Context {PFParticle Cluster Hit : Type}.
Implicit Types evt : @Event PFParticle Cluster Hit.

(** The line of a hit, with the number of its visits. *)
Definition visit_line evt (i : nat) : line :=
  HitLine i (length (visits evt (Ptr_of (hitHandle evt) i))).

Definition visited_twice evt (i : nat) : Prop :=
  1 < length (visits evt (Ptr_of (hitHandle evt) i)).

#[global] Instance visited_twice_dec evt i : Decision (visited_twice evt i).
Proof. unfold visited_twice. apply _. Defined.

(** A Ptr that the second loop makes: into the hit collection, with a key
    below [nHits]. *)
Definition scanned_hit evt (pHit : Ptr) : Prop :=
  ptr_id pHit = id (hitHandle evt) ∧ key pHit < Z.to_nat (nHits evt).

#[global] Instance scanned_hit_dec evt pHit : Decision (scanned_hit evt pHit).
Proof. unfold scanned_hit. apply _. Defined.

(** Two events with the same hits, as many PFParticles, the same
    cluster-to-hit association, and rows of clusters that agree on the keys
    of the clusters (while the product ids of the cluster Ptrs, the product
    id and the records of the PFParticle collection and the cluster
    collection may differ). *)
Definition same_cluster_keys evt evt' : Prop :=
  hitHandle evt' = hitHandle evt ∧
  length (product (pfParticleHandle evt')) = length (product (pfParticleHandle evt)) ∧
  clusterToHitAssoc evt' = clusterToHitAssoc evt ∧
  Forall2 (Forall2 (λ c c', key c = key c'))
          (pfParticleToClusterAssoc evt) (pfParticleToClusterAssoc evt').

(** The event with other hits for the cluster with key [k]. *)
Definition set_cluster_hits evt (k : nat) (hits : list Ptr) : Event :=
  mkEvent (pfParticleHandle evt) (clusterHandle evt) (hitHandle evt)
          (pfParticleToClusterAssoc evt)
          (<[k := hits]> (clusterToHitAssoc evt)).

(** No PFParticle of the collection has a cluster with key [k]. *)
Definition orphan_cluster evt (k : nat) : Prop :=
  ∀ i c, i < length (product (pfParticleHandle evt)) →
         c ∈ clusters_of evt i → key c ≠ k.

(** The event with one more PFParticle, after the others, and its clusters. *)
Definition with_pfparticle evt (x : PFParticle) (clusters : list Ptr) : Event :=
  mkEvent (mkHandle (id (pfParticleHandle evt)) (product (pfParticleHandle evt) ++ [x]))
          (clusterHandle evt) (hitHandle evt)
          (pfParticleToClusterAssoc evt ++ [clusters])
          (clusterToHitAssoc evt).

(** The hits of the collection with two or more distinct PFParticles. *)
Definition has_two_owners evt (m : HitMap) (i : nat) : Prop :=
  2 ≤ distinct_pfparticles (entry m (Ptr_of (hitHandle evt) i)).

#[global] Instance has_two_owners_dec evt m i : Decision (has_two_owners evt m i).
Proof. unfold has_two_owners. apply _. Defined.

End Variants.

(** ** The first loop with the index of the source *)

Section SourceLoop.
Context {PFParticle Cluster Hit : Type}.
Variable evt : @Event PFParticle Cluster Hit.

(** The first loop as the source runs it: the index [i] is an
    [unsigned int], it is compared with the size of the PFParticle
    collection, and [++i] is taken modulo [UINT_MAX + 1].  This loop need
    not end.  [fuel] is the number of tests of [i < size] that are
    followed, and [None] says that the loop is still running after them. *)
Fixpoint first_loop (fuel : nat) (i : Z) (m : HitMap) : option (result HitMap) :=
  match fuel with
  | 0 => None
  | S fuel' =>
      if decide (i < Z.of_nat (length (product (pfParticleHandle evt))))%Z
      then match add_pfparticle evt m (Z.to_nat i) with
           | Ok m' => first_loop fuel' (to_uint (i + 1)) m'
           | Throw e => Some (Throw e)
           end
      else Some (Ok m)
  end.

(** The second loop, the summary and the end of [analyze], for the map that
    the first loop has built. *)
Definition scan_and_report (m : HitMap) : Outcome :=
  let s := audit evt m in
  let out := audit_out s ++ [SummaryLine (nHits evt) (nMultiAssociatedHits s)] in
  if decide (nMultiAssociatedHits s ≠ 0%Z)
  then mkOutcome out (Throw MultiAssociationViolation)
  else mkOutcome out (Ok ()).

(** [analyze] with the first loop as the source runs it: [None] while that
    loop is still running. *)
Definition analyze_source (fuel : nat) : option Outcome :=
  match first_loop fuel 0 ∅ with
  | None => None
  | Some (Throw e) => Some (mkOutcome [] (Throw e))
  | Some (Ok m) => Some (scan_and_report m)
  end.

End SourceLoop.

(** ** Small events *)

Module Scenarios.
Definition pfp : ProductID := 1.
Definition clu : ProductID := 2.
Definition hit : ProductID := 3.

Definition event (nPfp nClu nHit : nat) (pc ch : list (list nat)) : @Event unit unit unit :=
  mkEvent (mkHandle pfp (replicate nPfp ()))
          (mkHandle clu (replicate nClu ()))
          (mkHandle hit (replicate nHit ()))
          (map (map (mkPtr clu)) pc)
          (map (map (mkPtr hit)) ch).

(** three hits, one PFParticle with one cluster that holds them all *)
Definition one_owner := event 1 1 3 [[0]] [[0; 1; 2]].

(** two PFParticles with a cluster each; both clusters hold hit 0 *)
Definition shared_hit := event 2 2 2 [[0]; [1]] [[0]; [0; 1]].

(** five hits and no PFParticle *)
Definition no_pfparticles := event 0 0 5 [] [].

(** a cluster that names hit 7 of a collection of one hit *)
Definition stray_hit := event 1 1 1 [[0]] [[0; 7]].

(** one PFParticle whose two clusters both hold hit 0 *)
Definition same_pfparticle_twice := event 1 2 1 [[0; 1]] [[0]; [0]].

(** a PFParticle that names cluster 4 of a collection of one cluster *)
Definition stray_cluster := event 1 1 1 [[4]] [[0]].

(** two PFParticles, the first with two clusters; hit 1 is in a cluster of
    each; and the same with PFParticles, clusters and hits in another order *)
Definition two_owners := event 2 3 3 [[0; 1]; [2]] [[0]; [1]; [1; 2]].

(** the maps that the first loop builds for two of these events *)
Definition shared_hit_map : HitMap :=
  <[mkPtr hit 0 := [mkPtr pfp 0; mkPtr pfp 1]]> (<[mkPtr hit 1 := [mkPtr pfp 1]]> ∅).

Definition same_pfparticle_twice_map : HitMap :=
  <[mkPtr hit 0 := [mkPtr pfp 0; mkPtr pfp 0]]> ∅.
End Scenarios.

Module MoreScenarios.
Import Scenarios.

(** [shared_hit] with cluster Ptrs into another product, and another product
    id for the PFParticles *)
Definition shared_hit_other_ids : @Event unit unit unit :=
  mkEvent (mkHandle 9 (replicate 2 ())) (mkHandle 8 []) (mkHandle hit (replicate 2 ()))
          [[mkPtr 7 0]; [mkPtr 6 1]]
          (clusterToHitAssoc shared_hit).

(** clusters that point into hit product 5, scanned against hit product [hit] *)
Definition other_hit_product : @Event unit unit unit :=
  mkEvent (mkHandle pfp (replicate 2 ())) (mkHandle clu (replicate 2 ()))
          (mkHandle hit (replicate 2 ()))
          [[mkPtr clu 0]; [mkPtr clu 1]]
          [[mkPtr 5 0]; [mkPtr 5 0; mkPtr 5 1]].

(** hits of clusters and no hit collection *)
Definition no_hits := event 2 2 0 [[0]; [1]] [[0]; [0; 1]].

(** one PFParticle with cluster 0; clusters 1 and 2 belong to no PFParticle
    and both hold hit 1 *)
Definition orphans := event 1 3 2 [[0]] [[0]; [1]; [1]].

(** the map that the first loop builds for [one_owner] *)
Definition one_owner_map : HitMap :=
  <[mkPtr hit 0 := [mkPtr pfp 0]]>
    (<[mkPtr hit 1 := [mkPtr pfp 0]]> (<[mkPtr hit 2 := [mkPtr pfp 0]]> ∅)).

(** one PFParticle with cluster 0; cluster 1, with two other hits, belongs
    to no PFParticle *)
Definition free_cluster := event 1 2 4 [[0]] [[0; 1]; [2; 3]].
End MoreScenarios.

(** ** Hit collections beyond [UINT_MAX] *)

Module Overflow.
Import Scenarios.

(** [UINT_MAX + 1 + k], as a number of elements *)
Definition beyond_uint (k : nat) : nat := Z.to_nat (UINT_MAX + 1) + k.
Arguments beyond_uint : simpl never.

(** the event with a hit collection of [n] hits *)
Definition with_hits (evt : @Event unit unit unit) (n : nat) : @Event unit unit unit :=
  mkEvent (pfParticleHandle evt) (clusterHandle evt) (mkHandle hit (replicate n ()))
          (pfParticleToClusterAssoc evt) (clusterToHitAssoc evt).

(** the associations of [shared_hit], where hit 0 has two PFParticles, with
    [UINT_MAX + 1] hits, and with two more *)
Definition shared_hit_many := with_hits shared_hit (beyond_uint 0).
Definition shared_hit_many_2 := with_hits shared_hit (beyond_uint 2).

(** no PFParticle and [UINT_MAX + 1] hits *)
Definition no_pfparticles_many := with_hits no_pfparticles (beyond_uint 0).



End Overflow.

(** * Properties *)

Example one_owner_passes :
  analyze Scenarios.one_owner =
  mkOutcome [HitLine 0 1; HitLine 1 1; HitLine 2 1; SummaryLine 3 0] (Ok ()).
Proof. vm_compute. reflexivity. Qed.

Example shared_hit_fails :
  analyze Scenarios.shared_hit =
  mkOutcome [HitLine 0 2; HitLine 1 1; SummaryLine 2 1] (Throw MultiAssociationViolation).
Proof. vm_compute. reflexivity. Qed.

Example no_pfparticles_passes :
  analyze Scenarios.no_pfparticles =
  mkOutcome [HitLine 0 0; HitLine 1 0; HitLine 2 0; HitLine 3 0; HitLine 4 0;
             SummaryLine 5 0] (Ok ()).
Proof. vm_compute. reflexivity. Qed.

Example shared_hit_text :
  render <$> cout (analyze Scenarios.shared_hit) =
  ["Hit 0 - nPFParticles = 2"; "Hit 1 - nPFParticles = 1";
   "Of 2, 1 were associated to more than one PFParticle"]%string.
Proof. vm_compute. reflexivity. Qed.

(** ** The map operations *)

Lemma entry_empty pHit : entry ∅ pHit = [].
Proof. unfold entry. by rewrite lookup_empty. Qed.

Lemma subscript_fst m pHit : (subscript m pHit).1 = entry m pHit.
Proof. unfold subscript, entry. by destruct (m !! pHit). Qed.

Lemma subscript_entry m pHit h : entry (subscript m pHit).2 h = entry m h.
Proof.
  unfold subscript, entry.
  destruct (m !! pHit) eqn:E; simpl; [done|].
  destruct (decide (pHit = h)) as [->|Hne].
  - by rewrite lookup_insert_eq, E.
  - by rewrite lookup_insert_ne.
Qed.

Lemma entry_push_back_at p m pHit h :
  entry (push_back_at p m pHit) h =
  entry m h ++ (if decide (pHit = h) then [p] else []).
Proof.
  unfold push_back_at.
  pose proof (subscript_fst m pHit) as Hv.
  pose proof (subscript_entry m pHit h) as Hm.
  destruct (subscript m pHit) as [v m']; simpl in *.
  unfold entry at 1.
  destruct (decide (pHit = h)) as [->|Hne].
  - rewrite lookup_insert_eq. simpl. by rewrite Hv.
  - rewrite lookup_insert_ne by done. fold (entry m' h).
    by rewrite Hm, app_nil_r.
Qed.

Lemma no_empty_entry_empty : no_empty_entry ∅.
Proof. intros h. by rewrite lookup_empty. Qed.

Lemma no_empty_entry_push_back_at p m pHit :
  no_empty_entry m → no_empty_entry (push_back_at p m pHit).
Proof.
  intros Hm h. unfold push_back_at, subscript.
  destruct (m !! pHit) as [v|] eqn:E.
  - destruct (decide (pHit = h)) as [->|Hne].
    + rewrite lookup_insert_eq. intros [= Hv]. by destruct v.
    + rewrite lookup_insert_ne by done. apply Hm.
  - destruct (decide (pHit = h)) as [->|Hne].
    + by rewrite lookup_insert_eq.
    + rewrite !lookup_insert_ne by done. apply Hm.
Qed.

Lemma no_empty_entry_lookup m h :
  no_empty_entry m → (m !! h = None ↔ entry m h = []).
Proof.
  intros Hm. unfold entry. specialize (Hm h).
  destruct (m !! h) as [v|]; simpl; [|done].
  split; [done|]. intros ->. done.
Qed.

(** ** Loops that may throw *)

Lemma at_Ok assoc i v : at_ assoc i = Ok v ↔ assoc !! i = Some v.
Proof. unfold at_. destruct (assoc !! i); naive_solver. Qed.

Lemma at_Throw assoc i e :
  at_ assoc i = Throw e ↔ length assoc ≤ i ∧ e = out_of_range.
Proof.
  unfold at_. destruct (assoc !! i) eqn:E.
  - apply lookup_lt_Some in E. split; [done|]. intros [? _]. lia.
  - apply lookup_ge_None in E. split; [by intros [= <-]|by intros [_ ->]].
Qed.

(** ** The first loop *)

Section FirstLoop.
Context {PFParticle Cluster Hit : Type}.
Variable evt : @Event PFParticle Cluster Hit.

Lemma add_hits_entry p m hits h :
  entry (add_hits p m hits) h = entry m h ++ visits_in_hits p h hits.
Proof.
  revert m. induction hits as [|a hits IH]; intros m; simpl.
  - by rewrite app_nil_r.
  - unfold add_hits in *. rewrite IH, entry_push_back_at.
    by rewrite <- app_assoc.
Qed.

Lemma add_hits_no_empty p m hits :
  no_empty_entry m → no_empty_entry (add_hits p m hits).
Proof.
  revert m. induction hits as [|a hits IH]; intros m Hm; simpl; [done|].
  apply IH. by apply no_empty_entry_push_back_at.
Qed.

Lemma add_clusters_cases p m clusters :
  match add_clusters evt p m clusters with
  | Ok m' =>
      Forall (cluster_in_range evt) clusters ∧
      (∀ h, entry m' h = entry m h ++ visits_in_clusters evt p h clusters) ∧
      (no_empty_entry m → no_empty_entry m')
  | Throw e => e = out_of_range ∧ ¬ Forall (cluster_in_range evt) clusters
  end.
Proof.
  revert m. induction clusters as [|c clusters IH]; intros m; simpl.
  - split; [constructor|]. split; [|done]. intros h. by rewrite app_nil_r.
  - unfold add_clusters in *. unfold visits_in_clusters, hits_of. simpl.
    destruct (at_ (clusterToHitAssoc evt) (key c)) as [hits|e0] eqn:E; simpl.
    + specialize (IH (add_hits p m hits)).
      apply at_Ok in E. rewrite E. simpl.
      apply lookup_lt_Some in E.
      destruct (for_each _ _ clusters) as [m'|e].
      * destruct IH as (Hr & He & Hn). split; [by constructor|].
        split.
        -- intros h. rewrite He, add_hits_entry. simpl.
           by rewrite <- app_assoc.
        -- intros Hm. by apply Hn, add_hits_no_empty.
      * destruct IH as [-> Hr]. split; [done|].
        intros [_ H]%Forall_cons. by apply Hr.
    + apply at_Throw in E as [E ->]. split; [done|].
      intros [Hc _]%Forall_cons. unfold cluster_in_range in Hc. lia.
Qed.

Lemma add_pfparticle_cases m i :
  match add_pfparticle evt m i with
  | Ok m' =>
      pfparticle_in_range evt i ∧
      (∀ h, entry m' h = entry m h ++
              visits_in_clusters evt (Ptr_of (pfParticleHandle evt) i) h
                                 (clusters_of evt i)) ∧
      (no_empty_entry m → no_empty_entry m')
  | Throw e => e = out_of_range ∧ ¬ pfparticle_in_range evt i
  end.
Proof.
  unfold add_pfparticle, pfparticle_in_range, clusters_of. simpl.
  destruct (at_ (pfParticleToClusterAssoc evt) i) as [cs|e0] eqn:E; simpl.
  - apply at_Ok in E. rewrite E. simpl.
    apply lookup_lt_Some in E.
    pose proof (add_clusters_cases (Ptr_of (pfParticleHandle evt) i) m cs) as Hc.
    destruct (add_clusters evt _ m cs) as [m1|e].
    + destruct Hc as (Hr & He & Hn). done.
    + destruct Hc as [-> Hr]. split; [done|]. by intros [_ H].
  - apply at_Throw in E as [E ->]. split; [done|]. intros [Hi _]. lia.
Qed.

Lemma add_pfparticles_cases m (l : list nat) :
  match for_each (add_pfparticle evt) m l with
  | Ok m' =>
      Forall (pfparticle_in_range evt) l ∧
      (∀ h, entry m' h = entry m h ++
              (i ← l; visits_in_clusters evt (Ptr_of (pfParticleHandle evt) i) h
                                         (clusters_of evt i))) ∧
      (no_empty_entry m → no_empty_entry m')
  | Throw e => e = out_of_range ∧ ¬ Forall (pfparticle_in_range evt) l
  end.
Proof.
  revert m. induction l as [|i l IH]; intros m; simpl.
  - split; [constructor|]. split; [|done]. intros h. by rewrite app_nil_r.
  - pose proof (add_pfparticle_cases m i) as Hc.
    destruct (add_pfparticle evt m i) as [m1|e]; simpl.
    + destruct Hc as (Hr & He & Hn). specialize (IH m1).
      destruct (for_each _ m1 l) as [m'|e].
      * destruct IH as (Hr' & He' & Hn'). split; [by constructor|].
        split.
        -- intros h. rewrite He', He. by rewrite <- app_assoc.
        -- intros Hm. by apply Hn', Hn.
      * destruct IH as [-> Hr']. split; [done|].
        intros [_ H]%Forall_cons. by apply Hr'.
    + destruct Hc as [-> Hr]. split; [done|].
      intros [H _]%Forall_cons. by apply Hr.
Qed.

(** The first loop succeeds exactly when its lookups are in range, and then
    the vector of each hit is the sequence of its visits. *)
Lemma hitToPFParticlesMap_cases :
  match hitToPFParticlesMap evt with
  | Ok m => in_range evt ∧ (∀ h, entry m h = visits evt h) ∧ no_empty_entry m
  | Throw e => e = out_of_range ∧ ¬ in_range evt
  end.
Proof.
  unfold hitToPFParticlesMap, in_range, visits, visits_upto.
  pose proof (add_pfparticles_cases ∅
                (seq 0 (length (product (pfParticleHandle evt))))) as H.
  destruct (for_each _ _ _) as [m|e]; [|done].
  destruct H as (Hr & He & Hn). split; [done|]. split.
  - intros h. by rewrite He, entry_empty.
  - apply Hn, no_empty_entry_empty.
Qed.

Lemma hitToPFParticlesMap_Ok m :
  hitToPFParticlesMap evt = Ok m →
  in_range evt ∧ (∀ h, entry m h = visits evt h) ∧ no_empty_entry m.
Proof. intros H. pose proof hitToPFParticlesMap_cases as Hc. by rewrite H in Hc. Qed.

Lemma hitToPFParticlesMap_total :
  in_range evt → ∃ m, hitToPFParticlesMap evt = Ok m.
Proof.
  intros H. pose proof hitToPFParticlesMap_cases as Hc.
  destruct (hitToPFParticlesMap evt) as [m|e]; [by exists m|]. by destruct Hc.
Qed.

Lemma hitToPFParticlesMap_Throw e :
  hitToPFParticlesMap evt = Throw e → e = out_of_range ∧ ¬ in_range evt.
Proof. intros H. pose proof hitToPFParticlesMap_cases as Hc. by rewrite H in Hc. Qed.

End FirstLoop.

(** ** The second loop *)

Lemma to_uint_small z : (0 ≤ z ≤ UINT_MAX)%Z → to_uint z = z.
Proof. intros H. unfold to_uint, UINT_MAX in *. apply Z.mod_small. lia. Qed.

Lemma to_uint_range z : (0 ≤ to_uint z ≤ UINT_MAX)%Z.
Proof.
  unfold to_uint, UINT_MAX.
  pose proof (Z.mod_pos_bound z (4294967295 + 1)) as H. lia.
Qed.

Lemma to_uint_of_fits n : fits_uint n → to_uint (Z.of_nat n) = Z.of_nat n.
Proof. intros H. apply to_uint_small. unfold fits_uint in H. lia. Qed.

Section SecondLoop.
Context {PFParticle Cluster Hit : Type}.
Variable evt : @Event PFParticle Cluster Hit.

Lemma nHits_range : (0 ≤ nHits evt ≤ UINT_MAX)%Z.
Proof. apply to_uint_range. Qed.

Lemma nHits_fits :
  fits_uint (length (product (hitHandle evt))) →
  nHits evt = Z.of_nat (length (product (hitHandle evt))).
Proof. apply to_uint_of_fits. Qed.

Lemma scanned_length : length (scanned evt) = Z.to_nat (nHits evt).
Proof. unfold scanned. apply length_seq. Qed.

Lemma scanned_fits :
  fits_uint (length (product (hitHandle evt))) →
  scanned evt = seq 0 (length (product (hitHandle evt))).
Proof. intros H. unfold scanned. by rewrite nHits_fits, Nat2Z.id. Qed.

(** The line and the classification of a hit depend on its vector only. *)
Lemma hit_line_ext m m' i :
  (∀ h, entry m' h = entry m h) → hit_line evt m' i = hit_line evt m i.
Proof. intros H. unfold hit_line. by rewrite H. Qed.

Lemma is_multi_ext m m' i :
  (∀ h, entry m' h = entry m h) → is_multi evt m' i ↔ is_multi evt m i.
Proof. intros H. unfold is_multi. by rewrite H. Qed.

Lemma audit_hit_eq s i :
  audit_hit evt s i =
  mkAudit (subscript (audit_map s) (Ptr_of (hitHandle evt) i)).2
          (audit_out s ++ [hit_line evt (audit_map s) i])
          (if decide (is_multi evt (audit_map s) i)
           then to_uint (nMultiAssociatedHits s + 1)
           else nMultiAssociatedHits s).
Proof.
  unfold audit_hit, hit_line, is_multi.
  pose proof (subscript_fst (audit_map s) (Ptr_of (hitHandle evt) i)) as Hv.
  destruct (subscript _ _) as [v m']; simpl in *. subst v.
  repeat case_decide; try done; lia.
Qed.

(** The loop over any indices: the entries are kept, one line is written
    for each index in turn, and the counter, as long as it cannot exceed
    [UINT_MAX], grows by the number of indices with more than one
    PFParticle. *)
Lemma audit_loop l s :
  let s' := foldl (audit_hit evt) s l in
  (∀ h, entry (audit_map s') h = entry (audit_map s) h) ∧
  audit_out s' = audit_out s ++ (hit_line evt (audit_map s) <$> l) ∧
  ((0 ≤ nMultiAssociatedHits s)%Z →
   (nMultiAssociatedHits s + Z.of_nat (length l) ≤ UINT_MAX)%Z →
   nMultiAssociatedHits s' =
   (nMultiAssociatedHits s +
    Z.of_nat (length (filter (is_multi evt (audit_map s)) l)))%Z).
Proof.
  revert s. induction l as [|i l IH]; intros s; simpl.
  - split; [done|]. split; [by rewrite app_nil_r|]. intros _ _. lia.
  - destruct (IH (audit_hit evt s i)) as (He & Ho & Hn).
    assert (∀ h, entry (audit_map (audit_hit evt s i)) h = entry (audit_map s) h)
      as Hstep.
    { intros h. rewrite audit_hit_eq. simpl. apply subscript_entry. }
    split; [|split].
    + intros h. by rewrite He, Hstep.
    + rewrite Ho. rewrite audit_hit_eq at 1. simpl. rewrite <- app_assoc. simpl.
      do 2 f_equal. apply list_fmap_ext. intros ? j ?.
      by apply hit_line_ext.
    + intros H0 Hmax.
      assert (filter (is_multi evt (audit_map (audit_hit evt s i))) l =
              filter (is_multi evt (audit_map s)) l) as Hf.
      { apply list_filter_iff. intros j. by apply is_multi_ext. }
      rewrite Hf in Hn. rewrite filter_cons.
      pose proof (length_filter (is_multi evt (audit_map s)) l) as Hle.
      assert (nMultiAssociatedHits (audit_hit evt s i) =
              if decide (is_multi evt (audit_map s) i)
              then to_uint (nMultiAssociatedHits s + 1)
              else nMultiAssociatedHits s) as Hc
        by (by rewrite audit_hit_eq).
      rewrite Hc in Hn.
      destruct (decide (is_multi evt (audit_map s) i)) as [Hm|Hm].
      * rewrite to_uint_small in Hn by lia. rewrite Hn by lia.
        simpl. lia.
      * rewrite Hn by lia. lia.
Qed.

Lemma audit_spec m :
  (∀ h, entry (audit_map (audit evt m)) h = entry m h) ∧
  audit_out (audit evt m) = hit_line evt m <$> scanned evt ∧
  nMultiAssociatedHits (audit evt m) = Z.of_nat (multi_count evt m).
Proof.
  pose proof (audit_loop (scanned evt) (mkAudit m [] 0%Z)) as (He & Ho & Hn).
  simpl in *. split; [done|]. split; [done|].
  unfold audit, multi_count. fold (scanned evt). rewrite Hn; [lia|lia|].
  rewrite scanned_length. pose proof nHits_range. lia.
Qed.

(** [analyze], once the first loop has returned its map. *)
Lemma analyze_Ok m :
  hitToPFParticlesMap evt = Ok m →
  analyze evt =
  mkOutcome ((hit_line evt m <$> scanned evt) ++
             [SummaryLine (nHits evt) (Z.of_nat (multi_count evt m))])
            (if decide (multi_count evt m ≠ 0)
             then Throw MultiAssociationViolation else Ok ()).
Proof.
  intros H. unfold analyze. rewrite H.
  destruct (audit_spec m) as (_ & Ho & Hn). rewrite Ho, Hn.
  repeat case_decide; try done; lia.
Qed.

Lemma analyze_Throw e :
  hitToPFParticlesMap evt = Throw e → analyze evt = mkOutcome [] (Throw e).
Proof. intros H. unfold analyze. by rewrite H. Qed.

End SecondLoop.

(** ** The verdict and the counts *)

Lemma remove_dups_length_le (v : list Ptr) : length (remove_dups v) ≤ length v.
Proof.
  induction v as [|x v IH]; simpl; [done|].
  destruct (decide_rel elem_of x v); simpl; lia.
Qed.

Lemma summary_snoc out n k s :
  summary (mkOutcome (out ++ [SummaryLine n k]) s) = Some (n, k).
Proof. unfold summary. simpl. by rewrite last_snoc. Qed.

Lemma perHitDiagnostics_lines {PFParticle Cluster Hit}
    (evt : @Event PFParticle Cluster Hit) m l n k s :
  perHitDiagnostics (mkOutcome ((hit_line evt m <$> l) ++ [SummaryLine n k]) s) =
  (λ i, (i, length (entry m (Ptr_of (hitHandle evt) i)))) <$> l.
Proof.
  unfold perHitDiagnostics. simpl. rewrite omap_app. simpl. rewrite app_nil_r.
  induction l as [|i l IH]; [done|]. csimpl. by f_equal.
Qed.

Section Verdict.
Context {PFParticle Cluster Hit : Type}.
Variable evt : @Event PFParticle Cluster Hit.

(** C1: for a PFParticle collection of at most [UINT_MAX] elements,
    MultiAssociationViolation leaves [analyze] exactly when the count
    of over-associated hits it reports is positive, [analyze] returns
    normally exactly when that count is zero, and no count is reported
    exactly when a lookup of the first loop threw. *)
Theorem C1_violation_iff_count_nonzero :
  fits_uint (length (product (pfParticleHandle evt))) →
  let o := analyze evt in
  (status o = Throw MultiAssociationViolation ↔
     ∃ k, overAssociatedHits o = Some k ∧ (0 < k)%Z) ∧
  (status o = Ok () ↔ overAssociatedHits o = Some 0%Z) ∧
  (status o = Throw out_of_range ↔ overAssociatedHits o = None).
Proof.
  intros _.
  simpl. unfold overAssociatedHits.
  destruct (hitToPFParticlesMap evt) as [m|e] eqn:E.
  - rewrite (analyze_Ok evt m E), summary_snoc. simpl.
    destruct (decide (multi_count evt m ≠ 0)) as [Hk|Hk]; simpl.
    + split; [|split].
      * split; [|done]. intros _. eexists. split; [done|]. lia.
      * split; [done|]. intros [= H]. lia.
      * split; done.
    + split; [|split].
      * split; [done|]. intros (k & [= <-] & Hpos). lia.
      * split; [|done]. intros _. f_equal. lia.
      * split; done.
  - rewrite (analyze_Throw evt e E). simpl.
    apply hitToPFParticlesMap_Throw in E as [-> _].
    split; [|split]; split; try done. by intros (k & ? & _).
Qed.

(** C3, as the code has it: when the PFParticle collection and the hit
    collection hold at most [UINT_MAX] elements each, the first loop has
    returned the map, and the vector of some hit of the collection holds
    two or more distinct PFParticles, [analyze] ends with
    MultiAssociationViolation and the count it reports is at least one. *)
Theorem C3_violation_detected m i :
  fits_uint (length (product (pfParticleHandle evt))) →
  hitToPFParticlesMap evt = Ok m →
  fits_uint (length (product (hitHandle evt))) →
  i < length (product (hitHandle evt)) →
  2 ≤ distinct_pfparticles (entry m (Ptr_of (hitHandle evt) i)) →
  status (analyze evt) = Throw MultiAssociationViolation ∧
  ∃ k, overAssociatedHits (analyze evt) = Some k ∧ (1 ≤ k)%Z.
Proof.
  intros _.
  intros E Hfit Hi Hd.
  assert (0 < multi_count evt m) as Hpos.
  { unfold multi_count. rewrite scanned_fits by done.
    assert (i ∈ filter (is_multi evt m) (seq 0 (length (product (hitHandle evt)))))
      as Hin.
    { apply list_elem_of_filter. split.
      - unfold is_multi. unfold distinct_pfparticles in Hd.
        pose proof (remove_dups_length_le (entry m (Ptr_of (hitHandle evt) i))).
        lia.
      - apply elem_of_seq. lia. }
    destruct (filter _ _); [by apply elem_of_nil in Hin|simpl; lia]. }
  rewrite (analyze_Ok evt m E). unfold overAssociatedHits.
  rewrite summary_snoc. simpl.
  destruct (decide (multi_count evt m ≠ 0)) as [Hk|Hk]; [|lia].
  split; [done|]. eexists. split; [done|]. lia.
Qed.

(** C7, as the code has it: when the PFParticle collection and the hit
    collection hold at most [UINT_MAX] elements each and the first loop has
    returned the map, the total that [analyze] reports is the length of the
    hit collection, one line is written per hit, and a hit without an entry
    in the map is reported with zero PFParticles. *)
Theorem C7_coverage m :
  fits_uint (length (product (pfParticleHandle evt))) →
  hitToPFParticlesMap evt = Ok m →
  fits_uint (length (product (hitHandle evt))) →
  let o := analyze evt in
  totalHits o = Some (Z.of_nat (length (product (hitHandle evt)))) ∧
  length (perHitDiagnostics o) = length (product (hitHandle evt)) ∧
  ∀ i, i < length (product (hitHandle evt)) →
       m !! Ptr_of (hitHandle evt) i = None →
       perHitDiagnostics o !! i = Some (i, 0).
Proof.
  intros _.
  intros E Hfit. simpl. rewrite (analyze_Ok evt m E).
  unfold totalHits. rewrite summary_snoc, perHitDiagnostics_lines. simpl.
  rewrite nHits_fits, scanned_fits by done.
  split; [done|]. split; [by rewrite length_fmap, length_seq|].
  intros i Hi Hnone. rewrite list_lookup_fmap, lookup_seq_lt by done. simpl.
  unfold entry. by rewrite Hnone.
Qed.

(** C10, as the code has it: when the PFParticle collection and the hit
    collection hold at most [UINT_MAX] elements each and [analyze] ends with
    MultiAssociationViolation, everything had been written before: one line
    for every hit of the collection, in the order of the collection, then
    the summary with the length of the whole collection and the number of
    hits, among all of them, with more than one PFParticle. *)
Theorem C10_violation_after_full_scan :
  fits_uint (length (product (pfParticleHandle evt))) →
  status (analyze evt) = Throw MultiAssociationViolation →
  fits_uint (length (product (hitHandle evt))) →
  ∃ m, hitToPFParticlesMap evt = Ok m ∧
    let all_hits := seq 0 (length (product (hitHandle evt))) in
    let over := length (filter (is_multi evt m) all_hits) in
    cout (analyze evt) =
      (hit_line evt m <$> all_hits) ++
      [SummaryLine (Z.of_nat (length (product (hitHandle evt)))) (Z.of_nat over)] ∧
    perHitDiagnostics (analyze evt) =
      (λ i, (i, length (entry m (Ptr_of (hitHandle evt) i)))) <$> all_hits ∧
    totalHits (analyze evt) = Some (Z.of_nat (length all_hits)) ∧
    overAssociatedHits (analyze evt) = Some (Z.of_nat over) ∧
    0 < over.
Proof.
  intros _.
  intros Hs Hfit.
  destruct (hitToPFParticlesMap evt) as [m|e] eqn:E.
  - exists m. split; [done|]. simpl.
    rewrite (analyze_Ok evt m E) in Hs |- *.
    unfold totalHits, overAssociatedHits.
    rewrite summary_snoc, perHitDiagnostics_lines. simpl in *.
    unfold multi_count in *. rewrite nHits_fits by done.
    rewrite scanned_fits in * by done. rewrite length_seq.
    repeat split; try done.
    destruct (decide (_ ≠ 0)) as [Hk|Hk]; [lia|done].
  - rewrite (analyze_Throw evt e E) in Hs. simpl in Hs.
    apply hitToPFParticlesMap_Throw in E as [-> _]. done.
Qed.

End Verdict.

(** ** The derived relation *)

Section DerivedRelation.
Context {PFParticle Cluster Hit : Type}.
Variable evt : @Event PFParticle Cluster Hit.

Lemma elem_of_visits_in_hits q p h hits :
  q ∈ visits_in_hits p h hits ↔ q = p ∧ h ∈ hits.
Proof.
  unfold visits_in_hits. rewrite list_elem_of_bind. split.
  - intros (h' & Hq & Hh). case_decide; subst.
    + by apply list_elem_of_singleton in Hq.
    + by apply elem_of_nil in Hq.
  - intros [-> Hh]. exists h. split; [|done].
    rewrite decide_True by done. by apply list_elem_of_singleton.
Qed.

Lemma elem_of_visits_in_clusters q p h clusters :
  q ∈ visits_in_clusters evt p h clusters ↔
  q = p ∧ ∃ c, c ∈ clusters ∧ h ∈ hits_of evt c.
Proof.
  unfold visits_in_clusters. rewrite list_elem_of_bind.
  setoid_rewrite elem_of_visits_in_hits. split.
  - intros (c & [-> Hh] & Hc). eauto.
  - intros (-> & c & Hc & Hh). eauto.
Qed.

Lemma elem_of_visits q h :
  q ∈ visits evt h ↔
  ∃ i c, i < length (product (pfParticleHandle evt)) ∧
         q = Ptr_of (pfParticleHandle evt) i ∧
         c ∈ clusters_of evt i ∧ h ∈ hits_of evt c.
Proof.
  unfold visits, visits_upto. rewrite list_elem_of_bind.
  setoid_rewrite elem_of_visits_in_clusters. setoid_rewrite elem_of_seq.
  split.
  - intros (i & (-> & c & Hc & Hh) & Hi). exists i, c. split; [lia|done].
  - intros (i & c & Hi & -> & Hc & Hh). exists i. split; [eauto|lia].
Qed.

Lemma elem_of_default_lookup (assoc : FindManyP) i (x : Ptr) :
  x ∈ default [] (assoc !! i) ↔ ∃ row, assoc !! i = Some row ∧ x ∈ row.
Proof.
  destruct (assoc !! i) as [row|]; simpl.
  - split; [by exists row|]. by intros (? & [= <-] & ?).
  - split; [by intros ?%elem_of_nil|]. by intros (? & ? & _).
Qed.

(** C5: for a PFParticle collection of at most [UINT_MAX] elements, in the
    map that the first loop returns a PFParticle is in the
    vector of a hit exactly when it is the PFParticle at some index of the
    collection, some cluster is in the clusters associated to that index,
    and the hit is in the hits associated to that cluster's key. *)
Theorem C5_two_hop_reachability m h p :
  fits_uint (length (product (pfParticleHandle evt))) →
  hitToPFParticlesMap evt = Ok m →
  (p ∈ entry m h ↔
   ∃ i clusters c hits,
     i < length (product (pfParticleHandle evt)) ∧
     p = Ptr_of (pfParticleHandle evt) i ∧
     pfParticleToClusterAssoc evt !! i = Some clusters ∧ c ∈ clusters ∧
     clusterToHitAssoc evt !! key c = Some hits ∧ h ∈ hits).
Proof.
  intros _.
  intros E. apply hitToPFParticlesMap_Ok in E as (_ & He & _).
  rewrite He, elem_of_visits. unfold clusters_of, hits_of.
  setoid_rewrite elem_of_default_lookup. split.
  - intros (i & c & Hi & -> & (clusters & Hcs & Hc) & (hits & Hhs & Hh)).
    by exists i, clusters, c, hits.
  - intros (i & clusters & c & hits & Hi & -> & Hcs & Hc & Hhs & Hh).
    exists i, c. eauto 10.
Qed.

Lemma singleton_sublist_of (x : Ptr) l : x ∈ l → [x] `sublist_of` l.
Proof.
  intros (l1 & l2 & ->)%list_elem_of_split.
  apply sublist_inserts_l. apply sublist_skip, sublist_nil_l.
Qed.

Lemma visits_in_clusters_twice p h clusters j1 j2 c1 c2 :
  j1 < j2 → clusters !! j1 = Some c1 → clusters !! j2 = Some c2 →
  h ∈ hits_of evt c1 → h ∈ hits_of evt c2 →
  [p; p] `sublist_of` visits_in_clusters evt p h clusters.
Proof.
  intros Hlt H1 H2 Hh1 Hh2.
  rewrite <- (take_drop_middle clusters j1 c1 H1).
  assert (drop (S j1) clusters !! (j2 - S j1) = Some c2) as H2'.
  { rewrite lookup_drop. rewrite <- H2. f_equal. lia. }
  rewrite <- (take_drop_middle _ _ c2 H2').
  unfold visits_in_clusters.
  rewrite bind_app, bind_cons, bind_app, bind_cons.
  apply sublist_inserts_l.
  apply (sublist_app [p] _ [p]).
  - apply singleton_sublist_of, elem_of_visits_in_hits. done.
  - apply sublist_inserts_l, sublist_inserts_r.
    apply singleton_sublist_of, elem_of_visits_in_hits. done.
Qed.

Lemma visits_in_clusters_sublist i h :
  i < length (product (pfParticleHandle evt)) →
  visits_in_clusters evt (Ptr_of (pfParticleHandle evt) i) h (clusters_of evt i)
    `sublist_of` visits evt h.
Proof.
  intros Hi. unfold visits, visits_upto.
  assert (seq 0 (length (product (pfParticleHandle evt))) !! i = Some i) as Hl
    by (by apply lookup_seq_lt).
  rewrite <- (take_drop_middle _ _ _ Hl), bind_app, bind_cons.
  by apply sublist_inserts_l, sublist_inserts_r.
Qed.

(** C6: for a PFParticle collection of at most [UINT_MAX] elements, the
    vector that the first loop leaves for a hit is the sequence of
    its visits (PFParticles by index, the clusters of each in the order of
    the association, the hits of each cluster in the order of theirs, one
    occurrence for every visit); a hit has an entry only when it was
    visited; and a PFParticle that reaches a hit through two of its
    clusters is in that hit's vector twice. *)
Theorem C6_traversal_order_no_deduplication m :
  fits_uint (length (product (pfParticleHandle evt))) →
  hitToPFParticlesMap evt = Ok m →
  (∀ h, entry m h = visits evt h) ∧
  (∀ h, m !! h = None ↔ visits evt h = []) ∧
  (∀ i clusters j1 j2 c1 c2 h,
     i < length (product (pfParticleHandle evt)) →
     pfParticleToClusterAssoc evt !! i = Some clusters →
     j1 < j2 → clusters !! j1 = Some c1 → clusters !! j2 = Some c2 →
     h ∈ hits_of evt c1 → h ∈ hits_of evt c2 →
     [Ptr_of (pfParticleHandle evt) i; Ptr_of (pfParticleHandle evt) i]
       `sublist_of` entry m h).
Proof.
  intros _.
  intros E. apply hitToPFParticlesMap_Ok in E as (_ & He & Hn).
  split; [done|]. split.
  - intros h. rewrite <- He. by apply no_empty_entry_lookup.
  - intros i clusters j1 j2 c1 c2 h Hi Hcs Hlt H1 H2 Hh1 Hh2.
    rewrite He. etrans; [|by apply visits_in_clusters_sublist].
    unfold clusters_of. rewrite Hcs. simpl.
    by eapply visits_in_clusters_twice.
Qed.

End DerivedRelation.

(** ** What the outcome depends on *)

Lemma filter_ext_elem_of {A} (P Q : A → Prop)
    `{!∀ x, Decision (P x)} `{!∀ x, Decision (Q x)} (l : list A) :
  (∀ x, x ∈ l → P x ↔ Q x) → filter P l = filter Q l.
Proof.
  induction l as [|x l IH]; intros Hext; [done|].
  rewrite !filter_cons.
  rewrite IH by (intros y Hy; apply Hext; by right).
  destruct (decide (P x)) as [HP|HP], (decide (Q x)) as [HQ|HQ]; try done.
  - exfalso. apply HQ, Hext; [by left|done].
  - exfalso. apply HP, Hext; [by left|done].
Qed.

Section Extensionality.
Context {PFParticle Cluster Hit : Type}.
Implicit Types evt : @Event PFParticle Cluster Hit.

Lemma scanned_in_collection evt i :
  i ∈ scanned evt → hit_in_collection evt (Ptr_of (hitHandle evt) i).
Proof.
  unfold scanned. intros [_ Hi]%elem_of_seq. split; [done|]. simpl.
  assert (nHits evt ≤ Z.of_nat (length (product (hitHandle evt))))%Z; [|lia].
  unfold nHits, to_uint, UINT_MAX. apply Z.mod_le; lia.
Qed.

(** Two events with the same hit collection, whose first loops both throw
    or both return, and whose scanned hits are visited as often in one as
    in the other, have the same outcome. *)
Lemma analyze_ext evt evt' :
  hitHandle evt' = hitHandle evt →
  (in_range evt' ↔ in_range evt) →
  (∀ i, i ∈ scanned evt →
        length (visits evt' (Ptr_of (hitHandle evt) i)) =
        length (visits evt (Ptr_of (hitHandle evt) i))) →
  analyze evt' = analyze evt.
Proof.
  intros Hh Hr Hv.
  pose proof (hitToPFParticlesMap_cases evt) as H.
  pose proof (hitToPFParticlesMap_cases evt') as H'.
  destruct (hitToPFParticlesMap evt) as [m|e] eqn:E;
    destruct (hitToPFParticlesMap evt') as [m'|e'] eqn:E'.
  - destruct H as (_ & He & _), H' as (_ & He' & _).
    rewrite (analyze_Ok evt m E), (analyze_Ok evt' m' E').
    assert (nHits evt' = nHits evt) as Hn by (unfold nHits; by rewrite Hh).
    assert (scanned evt' = scanned evt) as Hs by (unfold scanned; by rewrite Hn).
    assert (hit_line evt' m' <$> scanned evt = hit_line evt m <$> scanned evt) as Hl.
    { apply list_fmap_ext. intros k i Hi%list_elem_of_lookup_2.
      unfold hit_line. by rewrite Hh, He, He', Hv. }
    assert (multi_count evt' m' = multi_count evt m) as Hc.
    { unfold multi_count. rewrite Hs. f_equal.
      apply filter_ext_elem_of. intros i Hi.
      unfold is_multi. by rewrite Hh, He, He', Hv. }
    by rewrite Hn, Hs, Hl, Hc.
  - destruct H as (H & _), H' as (_ & H'). by apply Hr in H.
  - destruct H as (_ & H), H' as (H' & _). by apply Hr in H'.
  - destruct H as (-> & _), H' as (-> & _).
    by rewrite (analyze_Throw evt _ E), (analyze_Throw evt' _ E').
Qed.

End Extensionality.

(** ** References outside the collections *)

Section StrayReferences.
Context {PFParticle Cluster Hit : Type}.
Implicit Types evt : @Event PFParticle Cluster Hit.

Lemma hits_of_without_stray_hits evt c :
  hits_of (without_stray_hits evt) c = filter (hit_in_collection evt) (hits_of evt c).
Proof.
  unfold hits_of. simpl. rewrite list_lookup_fmap.
  by destruct (clusterToHitAssoc evt !! key c).
Qed.

Lemma visits_in_hits_filter (P : Ptr → Prop) `{!∀ x, Decision (P x)} p h hits :
  P h → visits_in_hits p h (filter P hits) = visits_in_hits p h hits.
Proof.
  intros Hh. unfold visits_in_hits.
  induction hits as [|a hits IH]; [done|].
  rewrite filter_cons, bind_cons.
  destruct (decide (P a)) as [Ha|Ha].
  - by rewrite bind_cons, IH.
  - rewrite IH. rewrite decide_False; [done|]. by intros ->.
Qed.

Lemma visits_without_stray_hits evt h :
  hit_in_collection evt h → visits (without_stray_hits evt) h = visits evt h.
Proof.
  intros Hh. unfold visits, visits_upto. simpl.
  apply list_bind_ext; [|done]. intros i.
  unfold visits_in_clusters, clusters_of. simpl.
  apply list_bind_ext; [|done]. intros c.
  rewrite hits_of_without_stray_hits. by apply visits_in_hits_filter.
Qed.

Lemma in_range_without_stray_hits evt :
  in_range (without_stray_hits evt) ↔ in_range evt.
Proof.
  unfold in_range. simpl. apply Forall_iff. intros i.
  unfold pfparticle_in_range, clusters_of. simpl.
  apply and_iff_compat_l, Forall_iff. intros c.
  unfold cluster_in_range. simpl. by rewrite length_fmap.
Qed.

(** C9, as the code has it, for a PFParticle collection of at most
    [UINT_MAX] elements: an association of a cluster to a hit outside
    the hit collection is not detected, and the outcome is that of the
    event without such associations; what stops the check is a lookup
    outside an association (a PFParticle without a row, a cluster whose
    key is beyond the rows of the cluster-to-hit association), which
    throws [std::out_of_range] before anything is written. *)
Theorem C9_stray_hits_ignored_lookups_checked evt :
  fits_uint (length (product (pfParticleHandle evt))) →
  analyze (without_stray_hits evt) = analyze evt ∧
  (¬ in_range evt ↔ status (analyze evt) = Throw out_of_range) ∧
  (¬ in_range evt → cout (analyze evt) = []).
Proof.
  intros _.
  split; [|split].
  - apply analyze_ext; [done|apply in_range_without_stray_hits|].
    intros i Hi. f_equal.
    by apply visits_without_stray_hits, scanned_in_collection.
  - pose proof (hitToPFParticlesMap_cases evt) as H.
    destruct (hitToPFParticlesMap evt) as [m|e] eqn:E.
    + rewrite (analyze_Ok evt m E). simpl. destruct H as (H & _).
      split; [done|]. by case_decide.
    + rewrite (analyze_Throw evt e E). simpl. by destruct H as [-> H].
  - intros Hr. pose proof (hitToPFParticlesMap_cases evt) as H.
    destruct (hitToPFParticlesMap evt) as [m|e] eqn:E.
    + by destruct H as (H & _).
    + by rewrite (analyze_Throw evt e E).
Qed.

End StrayReferences.

(** C9, as the specification states it, fails: the cluster of this event is
    associated to hit 7 of a collection of one hit, and [analyze] returns
    without an exception. *)
Lemma C9_stray_hit_not_detected :
  ¬ (stray_hit_reference Scenarios.stray_hit →
     ∃ e, status (analyze Scenarios.stray_hit) = Throw e).
Proof.
  intros H. destruct H as [e He]; [|by vm_compute in He].
  exists [mkPtr Scenarios.hit 0; mkPtr Scenarios.hit 7], (mkPtr Scenarios.hit 7).
  split; [by left|]. split; [by right; left|].
  intros [_ Hk]. vm_compute in Hk. lia.
Qed.

(** ** The order of the input *)

Section Reordering.
Context {PFParticle Cluster Hit : Type}.
Implicit Types evt : @Event PFParticle Cluster Hit.

Lemma visits_in_hits_length p p' h hits hits' :
  hits ≡ₚ hits' →
  length (visits_in_hits p h hits) = length (visits_in_hits p' h hits').
Proof.
  intros Hp. trans (length (visits_in_hits p' h hits)).
  - clear Hp. unfold visits_in_hits. induction hits as [|a hits IH]; [done|].
    rewrite !bind_cons, !length_app. f_equal; [by case_decide|done].
  - unfold visits_in_hits. by rewrite Hp.
Qed.














End Reordering.

(** ** One PFParticle that reaches a hit through two clusters *)

Lemma same_pfparticle_twice_map_built :
  hitToPFParticlesMap Scenarios.same_pfparticle_twice =
  Ok Scenarios.same_pfparticle_twice_map.
Proof. vm_compute. reflexivity. Qed.

Lemma shared_hit_map_built :
  hitToPFParticlesMap Scenarios.shared_hit = Ok Scenarios.shared_hit_map.
Proof. vm_compute. reflexivity. Qed.

(** C2, on the event where the specification and the code part: the only
    hit is reached by the only PFParticle through both of its clusters; its
    vector holds that PFParticle twice, which is one distinct PFParticle,
    and [analyze] writes [nPFParticles = 2], counts the hit and throws. *)
Theorem C2_same_pfparticle_counted_twice :
  let h := mkPtr Scenarios.hit 0 in
  let m := Scenarios.same_pfparticle_twice_map in
  hitToPFParticlesMap Scenarios.same_pfparticle_twice = Ok m ∧
  entry m h = [mkPtr Scenarios.pfp 0; mkPtr Scenarios.pfp 0] ∧
  distinct_pfparticles (entry m h) = 1 ∧
  analyze Scenarios.same_pfparticle_twice =
    mkOutcome [HitLine 0 2; SummaryLine 1 1] (Throw MultiAssociationViolation).
Proof. repeat split; vm_compute; reflexivity. Qed.

(** C4, on the same event: every hit of the collection has at most one
    distinct PFParticle, yet the count that [analyze] reports is one and it
    ends with MultiAssociationViolation. *)
Theorem C4_single_owner_rejected :
  let evt := Scenarios.same_pfparticle_twice in
  ∃ m, hitToPFParticlesMap evt = Ok m ∧
       (∀ i, i < length (product (hitHandle evt)) →
             distinct_pfparticles (entry m (Ptr_of (hitHandle evt) i)) ≤ 1) ∧
       overAssociatedHits (analyze evt) = Some 1%Z ∧
       status (analyze evt) = Throw MultiAssociationViolation.
Proof.
  exists Scenarios.same_pfparticle_twice_map.
  split; [apply same_pfparticle_twice_map_built|].
  split; [|split; vm_compute; reflexivity].
  intros i Hi. simpl in Hi. assert (i = 0) as -> by lia.
  vm_compute. lia.
Qed.

(** ** The theorems at small events *)

Lemma shared_hit_pfparticles_fit :
  fits_uint (length (product (pfParticleHandle Scenarios.shared_hit))).
Proof. by vm_compute. Defined.

Lemma shared_hit_hits_fit :
  fits_uint (length (product (hitHandle Scenarios.shared_hit))).
Proof. by vm_compute. Defined.

Lemma C1_violation_iff_count_nonzero_witness :
  fits_uint (length (product (pfParticleHandle Scenarios.shared_hit))) ∧
  (status (analyze Scenarios.shared_hit) = Throw MultiAssociationViolation ↔
     ∃ k, overAssociatedHits (analyze Scenarios.shared_hit) = Some k ∧ (0 < k)%Z) ∧
  (status (analyze Scenarios.shared_hit) = Ok () ↔
     overAssociatedHits (analyze Scenarios.shared_hit) = Some 0%Z) ∧
  (status (analyze Scenarios.shared_hit) = Throw out_of_range ↔
     overAssociatedHits (analyze Scenarios.shared_hit) = None).
Proof.
  split; [apply shared_hit_pfparticles_fit|].
  apply (C1_violation_iff_count_nonzero Scenarios.shared_hit shared_hit_pfparticles_fit).
Defined.

Lemma C3_violation_detected_witness :
  fits_uint (length (product (pfParticleHandle Scenarios.shared_hit))) ∧
  fits_uint (length (product (hitHandle Scenarios.shared_hit))) ∧
  2 ≤ distinct_pfparticles
        (entry Scenarios.shared_hit_map (Ptr_of (hitHandle Scenarios.shared_hit) 0)) ∧
  status (analyze Scenarios.shared_hit) = Throw MultiAssociationViolation ∧
  ∃ k, overAssociatedHits (analyze Scenarios.shared_hit) = Some k ∧ (1 ≤ k)%Z.
Proof.
  assert (2 ≤ distinct_pfparticles
                (entry Scenarios.shared_hit_map
                       (Ptr_of (hitHandle Scenarios.shared_hit) 0))) as Hd
    by (vm_compute; lia).
  split; [apply shared_hit_pfparticles_fit|].
  split; [apply shared_hit_hits_fit|]. split; [done|].
  apply (C3_violation_detected Scenarios.shared_hit Scenarios.shared_hit_map 0).
  - apply shared_hit_pfparticles_fit.
  - vm_compute. reflexivity.
  - apply shared_hit_hits_fit.
  - simpl. lia.
  - done.
Defined.

Lemma C5_two_hop_reachability_witness :
  mkPtr Scenarios.pfp 1 ∈ entry Scenarios.shared_hit_map (mkPtr Scenarios.hit 1) ↔
  ∃ i clusters c hits,
    i < 2 ∧ mkPtr Scenarios.pfp 1 = mkPtr Scenarios.pfp i ∧
    pfParticleToClusterAssoc Scenarios.shared_hit !! i = Some clusters ∧
    c ∈ clusters ∧
    clusterToHitAssoc Scenarios.shared_hit !! key c = Some hits ∧
    mkPtr Scenarios.hit 1 ∈ hits.
Proof.
  apply (C5_two_hop_reachability Scenarios.shared_hit Scenarios.shared_hit_map).
  - apply shared_hit_pfparticles_fit.
  - vm_compute. reflexivity.
Defined.

Lemma C6_traversal_order_no_deduplication_witness :
  entry Scenarios.same_pfparticle_twice_map (mkPtr Scenarios.hit 0) =
    visits Scenarios.same_pfparticle_twice (mkPtr Scenarios.hit 0) ∧
  [mkPtr Scenarios.pfp 0; mkPtr Scenarios.pfp 0]
    `sublist_of` entry Scenarios.same_pfparticle_twice_map (mkPtr Scenarios.hit 0).
Proof.
  destruct (C6_traversal_order_no_deduplication
              Scenarios.same_pfparticle_twice Scenarios.same_pfparticle_twice_map)
    as (Hv & _ & Htwice).
  - by vm_compute.
  - vm_compute. reflexivity.
  - split; [apply Hv|].
    apply (Htwice 0 [mkPtr Scenarios.clu 0; mkPtr Scenarios.clu 1] 0 1
                  (mkPtr Scenarios.clu 0) (mkPtr Scenarios.clu 1)
                  (mkPtr Scenarios.hit 0)).
    + simpl. lia.
    + reflexivity.
    + lia.
    + reflexivity.
    + reflexivity.
    + vm_compute. by left.
    + vm_compute. by left.
Defined.

Lemma C7_coverage_witness :
  fits_uint (length (product (pfParticleHandle Scenarios.shared_hit))) ∧
  fits_uint (length (product (hitHandle Scenarios.shared_hit))) ∧
  totalHits (analyze Scenarios.shared_hit) = Some 2%Z ∧
  length (perHitDiagnostics (analyze Scenarios.shared_hit)) = 2.
Proof.
  split; [apply shared_hit_pfparticles_fit|].
  split; [apply shared_hit_hits_fit|].
  destruct (C7_coverage Scenarios.shared_hit Scenarios.shared_hit_map)
    as (Ht & Hl & _).
  - apply shared_hit_pfparticles_fit.
  - vm_compute. reflexivity.
  - apply shared_hit_hits_fit.
  - split; [apply Ht|apply Hl].
Defined.



Lemma C10_violation_after_full_scan_witness :
  fits_uint (length (product (pfParticleHandle Scenarios.shared_hit))) ∧
  fits_uint (length (product (hitHandle Scenarios.shared_hit))) ∧
  status (analyze Scenarios.shared_hit) = Throw MultiAssociationViolation ∧
  ∃ m, hitToPFParticlesMap Scenarios.shared_hit = Ok m ∧
       cout (analyze Scenarios.shared_hit) =
         (hit_line Scenarios.shared_hit m <$> [0; 1]) ++
         [SummaryLine 2
            (Z.of_nat (length (filter (is_multi Scenarios.shared_hit m) [0; 1])))].
Proof.
  assert (status (analyze Scenarios.shared_hit) = Throw MultiAssociationViolation)
    as Hs by (vm_compute; reflexivity).
  split; [apply shared_hit_pfparticles_fit|].
  split; [apply shared_hit_hits_fit|]. split; [done|].
  destruct (C10_violation_after_full_scan Scenarios.shared_hit
              shared_hit_pfparticles_fit Hs shared_hit_hits_fit)
    as (m & E & Hc & _).
  exists m. split; [done|]. apply Hc.
Defined.

Example two_owners_fails :
  analyze Scenarios.two_owners =
  mkOutcome [HitLine 0 1; HitLine 1 2; HitLine 2 1; SummaryLine 3 1]
            (Throw MultiAssociationViolation).
Proof. vm_compute. reflexivity. Qed.

Example stray_hit_passes :
  analyze Scenarios.stray_hit = mkOutcome [HitLine 0 1; SummaryLine 1 0] (Ok ()).
Proof. vm_compute. reflexivity. Qed.

Example stray_cluster_throws :
  analyze Scenarios.stray_cluster = mkOutcome [] (Throw out_of_range).
Proof. vm_compute. reflexivity. Qed.

(** ** Hit collections beyond [UINT_MAX] *)

Lemma of_nat_beyond_uint k :
  Z.of_nat (Overflow.beyond_uint k) = (UINT_MAX + 1 + Z.of_nat k)%Z.
Proof.
  unfold Overflow.beyond_uint. rewrite Nat2Z.inj_add, Z2Nat.id; [done|].
  unfold UINT_MAX. lia.
Qed.

Lemma to_uint_beyond_uint k :
  to_uint (Z.of_nat (Overflow.beyond_uint k)) = to_uint (Z.of_nat k).
Proof.
  rewrite of_nat_beyond_uint. unfold to_uint.
  replace (UINT_MAX + 1 + Z.of_nat k)%Z
    with (Z.of_nat k + 1 * (UINT_MAX + 1))%Z by lia.
  apply Z_mod_plus_full.
Qed.

Lemma hitToPFParticlesMap_with_hits evt n :
  hitToPFParticlesMap (Overflow.with_hits evt n) = hitToPFParticlesMap evt.
Proof. reflexivity. Qed.

Lemma length_with_hits evt n :
  length (product (hitHandle (Overflow.with_hits evt n))) = n.
Proof. simpl. apply length_replicate. Qed.

(** The second loop cannot tell hit collections whose sizes agree modulo
    [UINT_MAX + 1]. *)
Lemma analyze_with_hits evt n n' :
  to_uint (Z.of_nat n) = to_uint (Z.of_nat n') →
  analyze (Overflow.with_hits evt n) = analyze (Overflow.with_hits evt n').
Proof.
  intros H. unfold analyze, audit, nHits.
  rewrite !hitToPFParticlesMap_with_hits, !length_with_hits, H. reflexivity.
Qed.

Lemma analyze_beyond_uint evt k :
  analyze (Overflow.with_hits evt (Overflow.beyond_uint k)) =
  analyze (Overflow.with_hits evt k).
Proof. apply analyze_with_hits, to_uint_beyond_uint. Qed.

(** C3, as the specification states it, fails: hit 0 of this collection of
    [UINT_MAX + 1] hits has two distinct PFParticles, [nHits] is zero, no
    hit is scanned and [analyze] returns without an exception. *)
Lemma C3_many_hits_violation_missed :
  hitToPFParticlesMap Overflow.shared_hit_many = Ok Scenarios.shared_hit_map ∧
  0 < length (product (hitHandle Overflow.shared_hit_many)) ∧
  2 ≤ distinct_pfparticles
        (entry Scenarios.shared_hit_map (Ptr_of (hitHandle Overflow.shared_hit_many) 0)) ∧
  ¬ (status (analyze Overflow.shared_hit_many) = Throw MultiAssociationViolation ∧
     ∃ k, overAssociatedHits (analyze Overflow.shared_hit_many) = Some k ∧ (1 ≤ k)%Z).
Proof.
  unfold Overflow.shared_hit_many.
  split; [|split; [|split]].
  - rewrite hitToPFParticlesMap_with_hits. apply shared_hit_map_built.
  - rewrite length_with_hits. apply Nat2Z.inj_lt. rewrite of_nat_beyond_uint.
    unfold UINT_MAX. lia.
  - change (Ptr_of (hitHandle (Overflow.with_hits Scenarios.shared_hit
                                                  (Overflow.beyond_uint 0))) 0)
      with (mkPtr Scenarios.hit 0).
    vm_compute. lia.
  - rewrite analyze_beyond_uint. intros [Hs _]. vm_compute in Hs. discriminate Hs.
Qed.

(** C7, as the specification states it, fails: for this collection of
    [UINT_MAX + 1] hits (and no PFParticle) the total that [analyze] reports
    is zero. *)
Lemma C7_many_hits_total_truncated :
  hitToPFParticlesMap Overflow.no_pfparticles_many = Ok ∅ ∧
  totalHits (analyze Overflow.no_pfparticles_many) = Some 0%Z ∧
  ¬ (totalHits (analyze Overflow.no_pfparticles_many) =
     Some (Z.of_nat (length (product (hitHandle Overflow.no_pfparticles_many))))).
Proof.
  unfold Overflow.no_pfparticles_many.
  assert (totalHits (analyze (Overflow.with_hits Scenarios.no_pfparticles
                                (Overflow.beyond_uint 0))) = Some 0%Z) as Ht.
  { rewrite analyze_beyond_uint. vm_compute. reflexivity. }
  split; [|split].
  - rewrite hitToPFParticlesMap_with_hits. reflexivity.
  - exact Ht.
  - rewrite Ht, length_with_hits, of_nat_beyond_uint. intros H.
    apply (f_equal (default 1%Z)) in H. simpl in H. unfold UINT_MAX in H. lia.
Qed.

(** C10, as the specification states it, fails: with two hits more than
    [UINT_MAX + 1] in the collection, [analyze] ends with
    MultiAssociationViolation after two lines and a total of two, a prefix
    of the collection. *)
Lemma C10_many_hits_violation_after_prefix :
  status (analyze Overflow.shared_hit_many_2) = Throw MultiAssociationViolation ∧
  cout (analyze Overflow.shared_hit_many_2) =
    [HitLine 0 2; HitLine 1 1; SummaryLine 2 1] ∧
  ¬ (length (perHitDiagnostics (analyze Overflow.shared_hit_many_2)) =
     length (product (hitHandle Overflow.shared_hit_many_2))).
Proof.
  unfold Overflow.shared_hit_many_2.
  assert (analyze (Overflow.with_hits Scenarios.shared_hit (Overflow.beyond_uint 2)) =
          mkOutcome [HitLine 0 2; HitLine 1 1; SummaryLine 2 1]
                    (Throw MultiAssociationViolation)) as Ha.
  { rewrite analyze_beyond_uint. vm_compute. reflexivity. }
  rewrite Ha, length_with_hits. split; [reflexivity|]. split; [reflexivity|].
  change (length (perHitDiagnostics
            (mkOutcome [HitLine 0 2; HitLine 1 1; SummaryLine 2 1]
                       (Throw MultiAssociationViolation)))) with 2.
  intros H. apply (f_equal Z.of_nat) in H. rewrite of_nat_beyond_uint in H.
  unfold UINT_MAX in H. lia.
Qed.

Lemma C9_stray_hits_ignored_lookups_checked_witness :
  fits_uint (length (product (pfParticleHandle Scenarios.stray_hit))) ∧
  analyze (without_stray_hits Scenarios.stray_hit) = analyze Scenarios.stray_hit ∧
  (¬ in_range Scenarios.stray_hit ↔
   status (analyze Scenarios.stray_hit) = Throw out_of_range).
Proof.
  assert (fits_uint (length (product (pfParticleHandle Scenarios.stray_hit))))
    as Hfit by (by vm_compute).
  split; [exact Hfit|].
  destruct (C9_stray_hits_ignored_lookups_checked Scenarios.stray_hit Hfit)
    as (Ha & Hr & _).
  split; [exact Ha|exact Hr].
Defined.

(** ** Where the size of a vector is its number of distinct PFParticles

    The second loop compares the size of a hit's vector with one.  The size
    is the number of distinct PFParticles when no PFParticle reaches the hit
    twice, and on such events the check passes exactly when no scanned hit
    has two PFParticles. *)

Lemma distinct_pfparticles_NoDup v : NoDup v → distinct_pfparticles v = length v.
Proof.
  unfold distinct_pfparticles. induction 1 as [|x v Hx Hv IH]; simpl; [done|].
  destruct (decide_rel elem_of x v); [done|]. simpl. by rewrite IH.
Qed.

Section WithoutRepeats.
Context {PFParticle Cluster Hit : Type}.
Variable evt : @Event PFParticle Cluster Hit.

Lemma multi_count_zero m :
  multi_count evt m = 0 ↔
  ∀ i, i ∈ scanned evt → length (entry m (Ptr_of (hitHandle evt) i)) ≤ 1.
Proof.
  unfold multi_count. split.
  - intros H i Hi.
    destruct (decide (is_multi evt m i)) as [Hm|Hm]; [|unfold is_multi in Hm; lia].
    assert (i ∈ filter (is_multi evt m) (scanned evt)) as Hin
      by (by apply list_elem_of_filter).
    destruct (filter _ _); [by apply elem_of_nil in Hin|done].
  - intros H. destruct (filter _ _) as [|i l] eqn:E; [done|].
    assert (i ∈ filter (is_multi evt m) (scanned evt)) as Hin
      by (rewrite E; by left).
    apply list_elem_of_filter in Hin as [Hm Hi].
    apply H in Hi. unfold is_multi in Hm. lia.
Qed.

(** X2: for a PFParticle collection of at most
    [UINT_MAX] elements, once the first loop has returned, the check passes exactly when no
    scanned hit is visited more than once, where every path from a
    PFParticle through one of its clusters to a position of that cluster's
    hits is a visit. *)
Lemma passes_iff_no_hit_visited_twice m :
  fits_uint (length (product (pfParticleHandle evt))) →
  hitToPFParticlesMap evt = Ok m →
  status (analyze evt) = Ok () ↔
  ∀ i, i ∈ scanned evt → length (visits evt (Ptr_of (hitHandle evt) i)) ≤ 1.
Proof.
  intros _.
  intros E. rewrite (analyze_Ok evt m E). simpl.
  apply hitToPFParticlesMap_Ok in E as (_ & He & _).
  setoid_rewrite <- He. rewrite <- multi_count_zero.
  case_decide; split; try done; lia.
Qed.

(** X12: for a PFParticle collection of at most
    [UINT_MAX] elements, on an event where no PFParticle is twice in the vector of a scanned
    hit, hits with at most one distinct PFParticle everywhere make the check
    pass with a count of zero. *)
Lemma no_violation_passes_without_repeats m :
  fits_uint (length (product (pfParticleHandle evt))) →
  hitToPFParticlesMap evt = Ok m →
  (∀ i, i ∈ scanned evt → NoDup (entry m (Ptr_of (hitHandle evt) i))) →
  (∀ i, i ∈ scanned evt →
        distinct_pfparticles (entry m (Ptr_of (hitHandle evt) i)) ≤ 1) →
  status (analyze evt) = Ok () ∧ overAssociatedHits (analyze evt) = Some 0%Z.
Proof.
  intros _.
  intros E Hnd Hd.
  assert (multi_count evt m = 0) as Hz.
  { apply multi_count_zero. intros i Hi.
    rewrite <- distinct_pfparticles_NoDup by auto. auto. }
  rewrite (analyze_Ok evt m E). unfold overAssociatedHits.
  rewrite summary_snoc, Hz. simpl. done.
Qed.

End WithoutRepeats.

(** ** The whole output, from the associations *)

Lemma length_bind_seq_ext {A B} (f : nat → list A) (g : nat → list B) k n :
  (∀ i, k ≤ i < k + n → length (f i) = length (g i)) →
  length (seq k n ≫= f) = length (seq k n ≫= g).
Proof.
  revert k. induction n as [|n IH]; intros k Hfg; [done|].
  simpl. rewrite !length_app, Hfg by lia. f_equal. apply IH. intros i Hi.
  apply Hfg. lia.
Qed.

Lemma subscript_lookup m pHit h :
  (subscript m pHit).2 !! h =
  match m !! h with
  | Some v => Some v
  | None => if decide (h = pHit) then Some [] else None
  end.
Proof.
  unfold subscript. destruct (m !! pHit) as [v|] eqn:E; simpl.
  - destruct (m !! h) as [w|] eqn:Eh; [done|].
    rewrite decide_False; [done|]. intros ->. by rewrite E in Eh.
  - destruct (decide (h = pHit)) as [->|Hne].
    + rewrite lookup_insert_eq. by rewrite E.
    + rewrite lookup_insert_ne by done. by destruct (m !! h).
Qed.

Section ByVisits.
Context {PFParticle Cluster Hit : Type}.
Variable evt : @Event PFParticle Cluster Hit.

Lemma multi_count_le m : multi_count evt m ≤ Z.to_nat (nHits evt).
Proof.
  unfold multi_count. rewrite <- scanned_length. apply length_filter.
Qed.

Lemma nHits_le_size : (nHits evt ≤ Z.of_nat (length (product (hitHandle evt))))%Z.
Proof. unfold nHits, to_uint, UINT_MAX. apply Z.mod_le; lia. Qed.

Lemma analyze_by_visits :
  in_range evt →
  analyze evt =
  mkOutcome ((visit_line evt <$> scanned evt) ++
             [SummaryLine (nHits evt)
                (Z.of_nat (length (filter (visited_twice evt) (scanned evt))))])
            (if decide (length (filter (visited_twice evt) (scanned evt)) ≠ 0)
             then Throw MultiAssociationViolation else Ok ()).
Proof.
  intros Hr. destruct (hitToPFParticlesMap_total evt Hr) as [m E].
  rewrite (analyze_Ok evt m E).
  apply hitToPFParticlesMap_Ok in E as (_ & He & _).
  assert (hit_line evt m <$> scanned evt = visit_line evt <$> scanned evt) as ->.
  { apply list_fmap_ext. intros _ i _. unfold hit_line, visit_line. by rewrite He. }
  assert (multi_count evt m = length (filter (visited_twice evt) (scanned evt))) as ->.
  { unfold multi_count. f_equal. apply list_filter_iff. intros i.
    unfold is_multi, visited_twice. by rewrite He. }
  done.
Qed.

(** When no scanned hit is visited, every line reports zero PFParticles and
    the check passes. *)
Lemma analyze_no_visits :
  in_range evt →
  (∀ i, i ∈ scanned evt → visits evt (Ptr_of (hitHandle evt) i) = []) →
  analyze evt =
  mkOutcome (((λ i, HitLine i 0) <$> scanned evt) ++ [SummaryLine (nHits evt) 0])
            (Ok ()).
Proof.
  intros Hr Hv. rewrite (analyze_by_visits Hr).
  assert (visit_line evt <$> scanned evt = (λ i, HitLine i 0) <$> scanned evt) as ->.
  { apply list_fmap_ext. intros k i Hi%list_elem_of_lookup_2.
    unfold visit_line. by rewrite Hv. }
  assert (filter (visited_twice evt) (scanned evt) = []) as ->.
  { destruct (filter _ _) as [|i l] eqn:E; [done|].
    assert (i ∈ filter (visited_twice evt) (scanned evt)) as Hin
      by (rewrite E; by left).
    apply list_elem_of_filter in Hin as [Ht Hi].
    unfold visited_twice in Ht. rewrite Hv in Ht by done. simpl in Ht. lia. }
  done.
Qed.

(** X1: for a PFParticle collection of at most
    [UINT_MAX] elements, with every lookup of the first loop in range, what [analyze] writes
    is determined by the associations: one line for each of the first
    [nHits] hits, in order, with the number of its visits, a total of
    [nHits], and a count that is the number of those hits visited more than
    once. *)
Theorem X1_output_from_associations :
  fits_uint (length (product (pfParticleHandle evt))) →
  in_range evt →
  perHitDiagnostics (analyze evt) =
    (λ i, (i, length (visits evt (Ptr_of (hitHandle evt) i)))) <$> scanned evt ∧
  totalHits (analyze evt) = Some (nHits evt) ∧
  overAssociatedHits (analyze evt) =
    Some (Z.of_nat (length (filter (visited_twice evt) (scanned evt)))).
Proof.
  intros _.
  intros Hr. rewrite (analyze_by_visits Hr).
  unfold totalHits, overAssociatedHits. rewrite summary_snoc. simpl.
  split; [|done].
  unfold perHitDiagnostics. simpl. rewrite omap_app. simpl. rewrite app_nil_r.
  induction (scanned evt) as [|i l IH]; [done|]. csimpl. by f_equal.
Qed.

(** X3: for a PFParticle collection of at most
    [UINT_MAX] elements, whenever [analyze] writes its summary, the count is between zero and
    the total, and the total is at most [UINT_MAX] and at most the size of
    the hit collection: the counter is never incremented past its type. *)
Theorem X3_count_within_total n k :
  fits_uint (length (product (pfParticleHandle evt))) →
  summary (analyze evt) = Some (n, k) →
  (0 ≤ k ≤ n)%Z ∧ (n ≤ UINT_MAX)%Z ∧
  (n ≤ Z.of_nat (length (product (hitHandle evt))))%Z.
Proof.
  intros _.
  destruct (hitToPFParticlesMap evt) as [m|e] eqn:E.
  - rewrite (analyze_Ok evt m E), summary_snoc. intros [= <- <-].
    pose proof (multi_count_le m). pose proof (nHits_range evt).
    pose proof nHits_le_size. lia.
  - by rewrite (analyze_Throw evt e E).
Qed.

(** The map after the second loop over any indices. *)
Lemma audit_loop_lookup l s h :
  audit_map (foldl (audit_hit evt) s l) !! h =
  match audit_map s !! h with
  | Some v => Some v
  | None => if decide (ptr_id h = id (hitHandle evt) ∧ key h ∈ l)
            then Some [] else None
  end.
Proof.
  revert s. induction l as [|i l IH]; intros s; simpl.
  - destruct (audit_map s !! h); [done|].
    rewrite decide_False; [done|]. intros [_ H]. by apply elem_of_nil in H.
  - rewrite IH, audit_hit_eq. simpl. rewrite subscript_lookup.
    destruct (audit_map s !! h) as [v|]; [done|].
    destruct (decide (h = Ptr_of (hitHandle evt) i)) as [->|Hne].
    + rewrite decide_True; [done|]. split; [done|]. by left.
    + destruct (decide (ptr_id h = id (hitHandle evt) ∧ key h ∈ l)) as [[? ?]|Hn].
      * rewrite decide_True; [done|]. split; [done|]. by right.
      * rewrite decide_False; [done|]. intros [Hid [Hk|Hin]%elem_of_cons].
        -- apply Hne. destruct h. unfold Ptr_of. simpl in *. by subst.
        -- by apply Hn.
Qed.

(** X4: the second loop leaves every vector of the map as it was and makes
    an empty entry for each hit it scans that had none; no other entry
    appears. *)
Theorem X4_second_loop_makes_empty_entries m h :
  audit_map (audit evt m) !! h =
  match m !! h with
  | Some v => Some v
  | None => if decide (scanned_hit evt h) then Some [] else None
  end.
Proof.
  unfold audit. rewrite audit_loop_lookup. simpl.
  destruct (m !! h); [done|].
  destruct (decide (scanned_hit evt h)) as [[Hid Hk]|Hn].
  - rewrite decide_True; [done|]. split; [done|]. apply elem_of_seq. lia.
  - rewrite decide_False; [done|]. intros [Hid Hk%elem_of_seq].
    apply Hn. split; [done|]. lia.
Qed.

(** X5: with no PFParticle in the event, every hit is reported with zero
    PFParticles and the check passes. *)
Theorem X5_no_pfparticles_passes :
  product (pfParticleHandle evt) = [] →
  analyze evt =
  mkOutcome (((λ i, HitLine i 0) <$> scanned evt) ++ [SummaryLine (nHits evt) 0])
            (Ok ()).
Proof.
  intros Hp. apply analyze_no_visits.
  - unfold in_range. rewrite Hp. constructor.
  - intros i _. unfold visits. by rewrite Hp.
Qed.

(** X6: for a PFParticle collection of at most
    [UINT_MAX] elements, with no hit in the collection nothing is
    scanned: when the lookups
    of the first loop are in range the only line is the summary, with zero
    and zero, and the check passes whatever the associations hold; when one
    is out of range the check still ends with [std::out_of_range]. *)
Theorem X6_no_hits :
  fits_uint (length (product (pfParticleHandle evt))) →
  product (hitHandle evt) = [] →
  (in_range evt → analyze evt = mkOutcome [SummaryLine 0 0] (Ok ())) ∧
  (¬ in_range evt → analyze evt = mkOutcome [] (Throw out_of_range)).
Proof.
  intros _.
  intros Hh. split.
  - intros Hr. rewrite (analyze_by_visits Hr).
    unfold scanned, nHits. rewrite Hh. done.
  - intros Hr. pose proof (hitToPFParticlesMap_cases evt) as H.
    destruct (hitToPFParticlesMap evt) as [m|e] eqn:E.
    + by destruct H as (H & _).
    + destruct H as (-> & _). by apply analyze_Throw.
Qed.

(** X7: for a PFParticle collection of at most
    [UINT_MAX] elements, when no hit that a cluster is associated to lies in the product of
    the hit collection (the clusters were made from other hits than those
    read for the scan), every hit is reported with zero PFParticles and the
    check passes. *)
Theorem X7_other_hit_product_passes :
  fits_uint (length (product (pfParticleHandle evt))) →
  in_range evt →
  (∀ hits pHit, hits ∈ clusterToHitAssoc evt → pHit ∈ hits →
                ptr_id pHit ≠ id (hitHandle evt)) →
  analyze evt =
  mkOutcome (((λ i, HitLine i 0) <$> scanned evt) ++ [SummaryLine (nHits evt) 0])
            (Ok ()).
Proof.
  intros _.
  intros Hr Hid. apply analyze_no_visits; [done|].
  intros i _.
  destruct (visits evt (Ptr_of (hitHandle evt) i)) as [|p l] eqn:E; [done|].
  assert (p ∈ visits evt (Ptr_of (hitHandle evt) i)) as Hin by (rewrite E; by left).
  apply elem_of_visits in Hin as (j & c & _ & _ & _ & Hh).
  unfold hits_of in Hh. apply elem_of_default_lookup in Hh as (hits & Hl & Hh).
  exfalso. apply (Hid hits (Ptr_of (hitHandle evt) i));
    [by eapply list_elem_of_lookup_2|done|done].
Qed.

End ByVisits.

(** ** Events that differ where the loops do not look *)

Lemma bind_ext_elem_of {A B} (f g : A → list B) (l : list A) :
  (∀ x, x ∈ l → f x = g x) → l ≫= f = l ≫= g.
Proof.
  induction l as [|x l IH]; intros Hfg; [done|].
  rewrite !bind_cons, Hfg by (by left). f_equal. apply IH. intros y Hy.
  apply Hfg. by right.
Qed.

Lemma length_filter_impl {A} (P Q : A → Prop)
    `{!∀ x, Decision (P x)} `{!∀ x, Decision (Q x)} (l : list A) :
  (∀ x, x ∈ l → P x → Q x) → length (filter P l) ≤ length (filter Q l).
Proof.
  induction l as [|x l IH]; intros Himp; [done|].
  rewrite !filter_cons.
  assert (length (filter P l) ≤ length (filter Q l)) as Hle
    by (apply IH; intros y Hy; apply Himp; by right).
  destruct (decide (P x)) as [HP|HP], (decide (Q x)) as [HQ|HQ]; simpl; try lia.
  exfalso. apply HQ, Himp; [by left|done].
Qed.

Section Elsewhere.
Context {PFParticle Cluster Hit : Type}.
Implicit Types evt : @Event PFParticle Cluster Hit.

Lemma visits_length_by_rows evt evt' h h' :
  length (product (pfParticleHandle evt')) = length (product (pfParticleHandle evt)) →
  (∀ i, i < length (product (pfParticleHandle evt)) →
        length (visits_in_clusters evt' (Ptr_of (pfParticleHandle evt') i) h'
                                   (clusters_of evt' i)) =
        length (visits_in_clusters evt (Ptr_of (pfParticleHandle evt) i) h
                                   (clusters_of evt i))) →
  length (visits evt' h') = length (visits evt h).
Proof.
  intros Hn Hrow. unfold visits, visits_upto. rewrite Hn.
  apply length_bind_seq_ext. intros i Hi. apply Hrow. lia.
Qed.

Lemma in_range_by_rows evt evt' :
  length (product (pfParticleHandle evt')) = length (product (pfParticleHandle evt)) →
  (∀ i, i < length (product (pfParticleHandle evt)) →
        pfparticle_in_range evt' i ↔ pfparticle_in_range evt i) →
  in_range evt' ↔ in_range evt.
Proof.
  intros Hn Hrow. unfold in_range. rewrite Hn, !Forall_seq.
  split; intros H i Hi; apply Hrow, H; lia.
Qed.

Lemma status_Ok_by_visits evt :
  in_range evt →
  status (analyze evt) = Ok () ↔
  ∀ i, i ∈ scanned evt → ¬ visited_twice evt i.
Proof.
  intros Hr. rewrite (analyze_by_visits evt Hr). simpl. split.
  - intros Hs i Hi Ht.
    assert (i ∈ filter (visited_twice evt) (scanned evt)) as Hin
      by (by apply list_elem_of_filter).
    destruct (filter _ _); [by apply elem_of_nil in Hin|]. by case_decide.
  - intros H. destruct (filter _ _) as [|i l] eqn:E; [done|].
    assert (i ∈ filter (visited_twice evt) (scanned evt)) as Hin
      by (rewrite E; by left).
    apply list_elem_of_filter in Hin as [Ht Hi]. by apply H in Hi.
Qed.

(** *** Product ids of clusters and PFParticles *)

Lemma clusters_of_same_keys evt evt' i :
  Forall2 (Forall2 (λ c c', key c = key c'))
          (pfParticleToClusterAssoc evt) (pfParticleToClusterAssoc evt') →
  Forall2 (λ c c', key c = key c') (clusters_of evt i) (clusters_of evt' i).
Proof.
  intros H. unfold clusters_of.
  destruct (pfParticleToClusterAssoc evt !! i) as [row|] eqn:E.
  - destruct (Forall2_lookup_l _ _ _ _ _ H E) as (row' & -> & Hrow). done.
  - apply lookup_ge_None in E. rewrite (Forall2_length _ _ _ H) in E.
    apply lookup_ge_None in E. rewrite E. constructor.
Qed.

Lemma visits_in_clusters_same_keys evt evt' p p' h clusters clusters' :
  clusterToHitAssoc evt' = clusterToHitAssoc evt →
  Forall2 (λ c c', key c = key c') clusters clusters' →
  length (visits_in_clusters evt' p' h clusters') =
  length (visits_in_clusters evt p h clusters).
Proof.
  intros Hh Hf. unfold visits_in_clusters.
  induction Hf as [|c c' l l' Hk Hf IH]; [done|].
  rewrite !bind_cons, !length_app, IH. f_equal.
  unfold hits_of. rewrite Hh, Hk. by apply visits_in_hits_length.
Qed.

(** X8: for PFParticle collections of at most [UINT_MAX] elements, the
    outcome does not depend on the product ids of the cluster Ptrs
    or of the PFParticle collection, nor on the cluster collection or the
    PFParticle records: two events with the same hits, as many PFParticles,
    the same cluster-to-hit association and rows that agree on the keys of
    the clusters have the same outcome. *)
Theorem X8_only_cluster_keys_matter evt evt' :
  fits_uint (length (product (pfParticleHandle evt))) →
  fits_uint (length (product (pfParticleHandle evt'))) →
  same_cluster_keys evt evt' → analyze evt' = analyze evt.
Proof.
  intros _ _.
  intros (Hh & Hn & Hc & Hrows). apply analyze_ext; [done| |].
  - apply in_range_by_rows; [done|]. intros i _.
    unfold pfparticle_in_range.
    rewrite <- (Forall2_length _ _ _ Hrows).
    apply and_iff_compat_l.
    pose proof (clusters_of_same_keys evt evt' i Hrows) as Hf.
    induction Hf as [|c c' l l' Hk Hf IH].
    + split; constructor.
    + rewrite !Forall_cons, IH. unfold cluster_in_range. by rewrite Hc, Hk.
  - intros i _. apply visits_length_by_rows; [done|]. intros j _.
    apply visits_in_clusters_same_keys; [done|].
    by apply clusters_of_same_keys.
Qed.

(** *** Clusters of no PFParticle *)

Lemma visits_in_clusters_agree evt evt' p h clusters :
  (∀ c, c ∈ clusters → hits_of evt' c = hits_of evt c) →
  visits_in_clusters evt' p h clusters = visits_in_clusters evt p h clusters.
Proof.
  intros H. unfold visits_in_clusters. apply bind_ext_elem_of.
  intros c Hc. by rewrite H.
Qed.

(** X9: for a PFParticle collection of at most
    [UINT_MAX] elements, the hits of a cluster that no PFParticle of the collection names are
    never read: with any other hits for that cluster the outcome is the
    same. *)
Theorem X9_orphan_cluster_not_read evt k hits :
  fits_uint (length (product (pfParticleHandle evt))) →
  orphan_cluster evt k → analyze (set_cluster_hits evt k hits) = analyze evt.
Proof.
  intros _.
  intros Ho. apply analyze_ext; [done| |].
  - apply in_range_by_rows; [done|]. intros i _.
    unfold pfparticle_in_range, clusters_of. simpl.
    apply and_iff_compat_l, Forall_iff. intros c.
    unfold cluster_in_range. simpl. by rewrite length_insert.
  - intros i _. apply visits_length_by_rows; [done|]. intros j Hj. f_equal.
    apply visits_in_clusters_agree. intros c Hc.
    unfold hits_of. simpl. rewrite list_lookup_insert_ne; [done|].
    intros Hk. by apply (Ho j c Hj Hc).
Qed.

(** *** One more PFParticle *)

Lemma visits_with_pfparticle evt x clusters h :
  one_row_per_pfparticle evt →
  visits (with_pfparticle evt x clusters) h =
  visits evt h ++
  visits_in_clusters evt
    (Ptr_of (pfParticleHandle evt) (length (product (pfParticleHandle evt)))) h clusters.
Proof.
  intros Hrow. unfold one_row_per_pfparticle in Hrow.
  unfold visits, visits_upto. simpl.
  rewrite length_app. simpl. rewrite Nat.add_1_r, seq_S, bind_app. simpl.
  rewrite app_nil_r. f_equal.
  - apply bind_ext_elem_of. intros i [_ Hi]%elem_of_seq.
    unfold clusters_of. simpl. rewrite lookup_app_l by lia. done.
  - unfold clusters_of. simpl. rewrite <- Hrow.
    rewrite list_lookup_middle by done. done.
Qed.

Lemma in_range_with_pfparticle evt x clusters :
  one_row_per_pfparticle evt →
  in_range (with_pfparticle evt x clusters) → in_range evt.
Proof.
  intros Hrow. unfold one_row_per_pfparticle in Hrow.
  unfold in_range. simpl. rewrite length_app. simpl.
  rewrite Nat.add_1_r, seq_S, Forall_app. intros [H _].
  rewrite Forall_forall in H |- *. intros i Hi. specialize (H i Hi).
  apply elem_of_seq in Hi as [_ Hi]. revert H.
  unfold pfparticle_in_range, clusters_of. simpl.
  rewrite lookup_app_l by lia. intros [_ Hc]. split; [lia|done].
Qed.

(** X10: when the collection with the new PFParticle still holds at most
    [UINT_MAX] elements, one more PFParticle at the end of the collection (with one row of
    clusters per PFParticle before) extends the vector of every hit by the
    visits of that PFParticle, after those of the others; so when the check
    passes with it, the check passes without it. *)
Theorem X10_more_pfparticles_never_unfail evt x clusters :
  fits_uint (length (product (pfParticleHandle (with_pfparticle evt x clusters)))) →
  one_row_per_pfparticle evt →
  (∀ h, visits (with_pfparticle evt x clusters) h =
        visits evt h ++
        visits_in_clusters evt
          (Ptr_of (pfParticleHandle evt) (length (product (pfParticleHandle evt))))
          h clusters) ∧
  (status (analyze (with_pfparticle evt x clusters)) = Ok () →
   status (analyze evt) = Ok ()).
Proof.
  intros _.
  intros Hrow. split; [intros h; by apply visits_with_pfparticle|].
  intros Hs.
  assert (in_range (with_pfparticle evt x clusters)) as Hr'.
  { destruct (decide (in_range (with_pfparticle evt x clusters))) as [|Hn]; [done|].
    pose proof (hitToPFParticlesMap_cases (with_pfparticle evt x clusters)) as H.
    destruct (hitToPFParticlesMap (with_pfparticle evt x clusters)) as [m|e] eqn:E.
    - by destruct H as (H & _).
    - by rewrite (analyze_Throw _ e E) in Hs. }
  pose proof (in_range_with_pfparticle evt x clusters Hrow Hr') as Hr.
  apply (status_Ok_by_visits _ Hr). intros i Hi Ht.
  pose proof (proj1 (status_Ok_by_visits _ Hr') Hs) as Hs'.
  apply (Hs' i Hi).
  unfold visited_twice in *. simpl.
  rewrite visits_with_pfparticle, length_app by done. lia.
Qed.

(** *** Distinct PFParticles and the size of a vector *)

(** X11: for a PFParticle collection of at most
    [UINT_MAX] elements, the count that [analyze] reports is at least the number of scanned
    hits with two or more distinct PFParticles: the size of a vector can
    exceed, and never falls below, its number of distinct PFParticles. *)
Theorem X11_count_bounds_distinct_owners evt m :
  fits_uint (length (product (pfParticleHandle evt))) →
  hitToPFParticlesMap evt = Ok m →
  ∃ k, overAssociatedHits (analyze evt) = Some k ∧
       (Z.of_nat (length (filter (has_two_owners evt m) (scanned evt))) ≤ k)%Z.
Proof.
  intros _.
  intros E. rewrite (analyze_Ok evt m E). unfold overAssociatedHits.
  rewrite summary_snoc. simpl. eexists. split; [done|].
  apply inj_le. unfold multi_count. apply length_filter_impl.
  intros i _. unfold has_two_owners, is_multi, distinct_pfparticles.
  pose proof (remove_dups_length_le (entry m (Ptr_of (hitHandle evt) i))). lia.
Qed.

End Elsewhere.

(** ** These properties at small events *)

Lemma shared_hit_in_range : in_range Scenarios.shared_hit.
Proof. apply (bool_decide_unpack _). vm_compute. exact I. Defined.

Lemma X1_output_from_associations_witness :
  fits_uint (length (product (pfParticleHandle Scenarios.shared_hit))) ∧
  in_range Scenarios.shared_hit ∧
  perHitDiagnostics (analyze Scenarios.shared_hit) =
    (λ i, (i, length (visits Scenarios.shared_hit
                             (Ptr_of (hitHandle Scenarios.shared_hit) i))))
      <$> scanned Scenarios.shared_hit ∧
  totalHits (analyze Scenarios.shared_hit) = Some (nHits Scenarios.shared_hit).
Proof.
  split; [apply shared_hit_pfparticles_fit|].
  split; [apply shared_hit_in_range|].
  destruct (X1_output_from_associations Scenarios.shared_hit
              shared_hit_pfparticles_fit shared_hit_in_range)
    as (Hd & Ht & _).
  split; [apply Hd|apply Ht].
Defined.

Lemma passes_iff_no_hit_visited_twice_witness :
  status (analyze Scenarios.shared_hit) = Ok () ↔
  ∀ i, i ∈ scanned Scenarios.shared_hit →
       length (visits Scenarios.shared_hit
                      (Ptr_of (hitHandle Scenarios.shared_hit) i)) ≤ 1.
Proof.
  apply (passes_iff_no_hit_visited_twice Scenarios.shared_hit Scenarios.shared_hit_map).
  - apply shared_hit_pfparticles_fit.
  - vm_compute. reflexivity.
Defined.

Lemma X3_count_within_total_witness :
  summary (analyze Scenarios.shared_hit) = Some (2, 1)%Z ∧
  (0 ≤ 1 ≤ 2)%Z ∧ (2 ≤ UINT_MAX)%Z ∧
  (2 ≤ Z.of_nat (length (product (hitHandle Scenarios.shared_hit))))%Z.
Proof.
  assert (summary (analyze Scenarios.shared_hit) = Some (2, 1)%Z) as Hs
    by (vm_compute; reflexivity).
  split; [done|].
  apply (X3_count_within_total Scenarios.shared_hit 2 1 shared_hit_pfparticles_fit Hs).
Defined.

Lemma X5_no_pfparticles_passes_witness :
  product (pfParticleHandle Scenarios.no_pfparticles) = [] ∧
  analyze Scenarios.no_pfparticles =
  mkOutcome (((λ i, HitLine i 0) <$> scanned Scenarios.no_pfparticles) ++
             [SummaryLine (nHits Scenarios.no_pfparticles) 0]) (Ok ()).
Proof.
  split; [reflexivity|].
  apply (X5_no_pfparticles_passes Scenarios.no_pfparticles). reflexivity.
Defined.

Lemma no_hits_in_range : in_range MoreScenarios.no_hits.
Proof. apply (bool_decide_unpack _). vm_compute. exact I. Defined.

Lemma X6_no_hits_witness :
  product (hitHandle MoreScenarios.no_hits) = [] ∧
  analyze MoreScenarios.no_hits = mkOutcome [SummaryLine 0 0] (Ok ()).
Proof.
  split; [reflexivity|].
  destruct (X6_no_hits MoreScenarios.no_hits) as [H _];
    [by vm_compute|reflexivity|].
  apply H, no_hits_in_range.
Defined.

Lemma other_hit_product_in_range : in_range MoreScenarios.other_hit_product.
Proof. apply (bool_decide_unpack _). vm_compute. exact I. Defined.

Lemma other_hit_product_ids hits pHit :
  hits ∈ clusterToHitAssoc MoreScenarios.other_hit_product → pHit ∈ hits →
  ptr_id pHit ≠ id (hitHandle MoreScenarios.other_hit_product).
Proof.
  assert (Forall (Forall (λ p, ptr_id p ≠ id (hitHandle MoreScenarios.other_hit_product)))
                 (clusterToHitAssoc MoreScenarios.other_hit_product)) as H.
  { repeat (constructor; [repeat (constructor; [by vm_compute|])|]);
      constructor. }
  intros Hin Hp. rewrite Forall_forall in H. specialize (H hits Hin).
  rewrite Forall_forall in H. by apply H.
Defined.

Lemma X7_other_hit_product_passes_witness :
  in_range MoreScenarios.other_hit_product ∧
  analyze MoreScenarios.other_hit_product =
  mkOutcome (((λ i, HitLine i 0) <$> scanned MoreScenarios.other_hit_product) ++
             [SummaryLine (nHits MoreScenarios.other_hit_product) 0]) (Ok ()).
Proof.
  split; [apply other_hit_product_in_range|].
  apply (X7_other_hit_product_passes MoreScenarios.other_hit_product).
  - by vm_compute.
  - apply other_hit_product_in_range.
  - apply other_hit_product_ids.
Defined.

Lemma shared_hit_other_ids_same_keys :
  same_cluster_keys Scenarios.shared_hit MoreScenarios.shared_hit_other_ids.
Proof.
  split; [reflexivity|]. split; [reflexivity|]. split; [reflexivity|].
  constructor; [constructor; [reflexivity|constructor]|].
  constructor; [constructor; [reflexivity|constructor]|]. constructor.
Defined.

Lemma X8_only_cluster_keys_matter_witness :
  same_cluster_keys Scenarios.shared_hit MoreScenarios.shared_hit_other_ids ∧
  analyze MoreScenarios.shared_hit_other_ids = analyze Scenarios.shared_hit.
Proof.
  split; [apply shared_hit_other_ids_same_keys|].
  apply X8_only_cluster_keys_matter;
    [by vm_compute|by vm_compute|apply shared_hit_other_ids_same_keys].
Defined.

Lemma orphans_cluster_2 : orphan_cluster MoreScenarios.orphans 2.
Proof.
  intros i c Hi Hc. simpl in Hi. assert (i = 0) as -> by lia.
  apply list_elem_of_singleton in Hc. subst c. simpl. lia.
Defined.

Lemma X9_orphan_cluster_not_read_witness :
  orphan_cluster MoreScenarios.orphans 2 ∧
  analyze (set_cluster_hits MoreScenarios.orphans 2 []) =
  analyze MoreScenarios.orphans.
Proof.
  split; [apply orphans_cluster_2|].
  apply X9_orphan_cluster_not_read; [by vm_compute|apply orphans_cluster_2].
Defined.

Lemma X10_more_pfparticles_never_unfail_witness :
  fits_uint (length (product (pfParticleHandle
    (with_pfparticle MoreScenarios.free_cluster () [mkPtr Scenarios.clu 1])))) ∧
  one_row_per_pfparticle MoreScenarios.free_cluster ∧
  status (analyze (with_pfparticle MoreScenarios.free_cluster ()
                                   [mkPtr Scenarios.clu 1])) = Ok () ∧
  status (analyze MoreScenarios.free_cluster) = Ok () ∧
  visits (with_pfparticle MoreScenarios.free_cluster () [mkPtr Scenarios.clu 1])
         (mkPtr Scenarios.hit 2) =
  visits MoreScenarios.free_cluster (mkPtr Scenarios.hit 2) ++
  visits_in_clusters MoreScenarios.free_cluster
    (Ptr_of (pfParticleHandle MoreScenarios.free_cluster)
            (length (product (pfParticleHandle MoreScenarios.free_cluster))))
    (mkPtr Scenarios.hit 2) [mkPtr Scenarios.clu 1].
Proof.
  assert (fits_uint (length (product (pfParticleHandle
            (with_pfparticle MoreScenarios.free_cluster () [mkPtr Scenarios.clu 1])))))
    as Hfit by (by vm_compute).
  assert (status (analyze (with_pfparticle MoreScenarios.free_cluster ()
                                           [mkPtr Scenarios.clu 1])) = Ok ())
    as Hs by (vm_compute; reflexivity).
  destruct (X10_more_pfparticles_never_unfail
              MoreScenarios.free_cluster () [mkPtr Scenarios.clu 1] Hfit)
    as [Hv Himp]; [reflexivity|].
  split; [exact Hfit|]. split; [reflexivity|]. split; [exact Hs|].
  split; [exact (Himp Hs)|apply Hv].
Defined.

Lemma X11_count_bounds_distinct_owners_witness :
  ∃ k, overAssociatedHits (analyze Scenarios.shared_hit) = Some k ∧
       (Z.of_nat (length (filter (has_two_owners Scenarios.shared_hit
                                                 Scenarios.shared_hit_map)
                                 (scanned Scenarios.shared_hit))) ≤ k)%Z.
Proof.
  apply (X11_count_bounds_distinct_owners Scenarios.shared_hit Scenarios.shared_hit_map).
  - apply shared_hit_pfparticles_fit.
  - vm_compute. reflexivity.
Defined.

Lemma one_owner_no_repeats i :
  i ∈ scanned Scenarios.one_owner →
  NoDup (entry MoreScenarios.one_owner_map (Ptr_of (hitHandle Scenarios.one_owner) i)) ∧
  distinct_pfparticles
    (entry MoreScenarios.one_owner_map (Ptr_of (hitHandle Scenarios.one_owner) i)) ≤ 1.
Proof.
  intros Hi.
  assert (Forall (λ i,
            NoDup (entry MoreScenarios.one_owner_map
                         (Ptr_of (hitHandle Scenarios.one_owner) i)) ∧
            distinct_pfparticles
              (entry MoreScenarios.one_owner_map
                     (Ptr_of (hitHandle Scenarios.one_owner) i)) ≤ 1)
            (scanned Scenarios.one_owner)) as H.
  { repeat (constructor;
            [split; [apply (bool_decide_unpack _); vm_compute; exact I
                    |vm_compute; lia]|]).
    constructor. }
  rewrite Forall_forall in H. by apply H.
Defined.

Lemma no_violation_passes_without_repeats_witness :
  status (analyze Scenarios.one_owner) = Ok () ∧
  overAssociatedHits (analyze Scenarios.one_owner) = Some 0%Z.
Proof.
  apply (no_violation_passes_without_repeats
           Scenarios.one_owner MoreScenarios.one_owner_map).
  - by vm_compute.
  - vm_compute. reflexivity.
  - intros i Hi. apply (one_owner_no_repeats i Hi).
  - intros i Hi. apply (one_owner_no_repeats i Hi).
Defined.

(** Two clusters of no PFParticle that share a hit are not found. *)
Example orphans_pass :
  analyze MoreScenarios.orphans = mkOutcome [HitLine 0 1; HitLine 1 0; SummaryLine 2 0] (Ok ()).
Proof. vm_compute. reflexivity. Qed.

Example other_hit_product_passes :
  analyze MoreScenarios.other_hit_product =
  mkOutcome [HitLine 0 0; HitLine 1 0; SummaryLine 2 0] (Ok ()).
Proof. vm_compute. reflexivity. Qed.

Example free_cluster_with_pfparticle_passes :
  analyze (with_pfparticle MoreScenarios.free_cluster () [mkPtr Scenarios.clu 1]) =
  mkOutcome [HitLine 0 1; HitLine 1 1; HitLine 2 1; HitLine 3 1; SummaryLine 4 0]
            (Ok ()).
Proof. vm_compute. reflexivity. Qed.

(** ** The first loop of the source and its model *)

Section SourceLoopAgrees.
Context {PFParticle Cluster Hit : Type}.
Variable evt : @Event PFParticle Cluster Hit.

(** On a collection that fits [unsigned int] the loop of the source ends,
    after one test more than there are PFParticles, with what
    [hitToPFParticlesMap] gives. *)
Lemma first_loop_from i k m fuel :
  fits_uint (length (product (pfParticleHandle evt))) →
  i + k = length (product (pfParticleHandle evt)) →
  k < fuel →
  first_loop evt fuel (Z.of_nat i) m =
  Some (for_each (add_pfparticle evt) m (seq i k)).
Proof.
  intros Hfit. revert i m fuel.
  induction k as [|k IH]; intros i m fuel Hn Hfuel;
    (destruct fuel as [|fuel]; [lia|]); simpl.
  - rewrite decide_False by lia. done.
  - rewrite decide_True by lia. rewrite Nat2Z.id.
    destruct (add_pfparticle evt m i) as [m'|e]; simpl; [|done].
    rewrite to_uint_small by (unfold fits_uint in Hfit; lia).
    replace (Z.of_nat i + 1)%Z with (Z.of_nat (S i)) by lia.
    apply IH; lia.
Qed.

Lemma first_loop_fits fuel :
  fits_uint (length (product (pfParticleHandle evt))) →
  length (product (pfParticleHandle evt)) < fuel →
  first_loop evt fuel 0 ∅ = Some (hitToPFParticlesMap evt).
Proof.
  intros Hfit Hfuel.
  apply (first_loop_from 0 (length (product (pfParticleHandle evt))) ∅ fuel);
    [done|lia|done].
Qed.

(** On a larger collection whose first [UINT_MAX + 1] PFParticles have their
    lookups in range, the loop of the source does not end. *)
Lemma first_loop_never_returns :
  ¬ fits_uint (length (product (pfParticleHandle evt))) →
  (∀ i, (Z.of_nat i ≤ UINT_MAX)%Z → pfparticle_in_range evt i) →
  ∀ fuel i m, (0 ≤ i ≤ UINT_MAX)%Z → first_loop evt fuel i m = None.
Proof.
  intros Hbig Hr. unfold fits_uint in Hbig.
  induction fuel as [|fuel IH]; intros i m Hi; simpl; [done|].
  rewrite decide_True by lia.
  pose proof (add_pfparticle_cases evt m (Z.to_nat i)) as Hc.
  destruct (add_pfparticle evt m (Z.to_nat i)) as [m'|e].
  - apply IH, to_uint_range.
  - destruct Hc as [_ Hc]. exfalso. apply Hc, Hr. lia.
Qed.

(** Whenever the loop of the source ends, it ends with what
    [hitToPFParticlesMap] gives, whatever the size of the collection. *)
Lemma first_loop_sound_from fuel i m r :
  first_loop evt fuel (Z.of_nat i) m = Some r →
  i ≤ length (product (pfParticleHandle evt)) →
  (Z.of_nat i ≤ UINT_MAX)%Z →
  (∀ j, j < i → pfparticle_in_range evt j) →
  for_each (add_pfparticle evt) m
           (seq i (length (product (pfParticleHandle evt)) - i)) = r.
Proof.
  revert i m. induction fuel as [|fuel IH]; intros i m H Hn Hi Hr; simpl in H;
    [done|].
  destruct (decide (Z.of_nat i < Z.of_nat (length (product (pfParticleHandle evt))))%Z)
    as [Hlt|Hge].
  - replace (length (product (pfParticleHandle evt)) - i)
      with (S (length (product (pfParticleHandle evt)) - S i)) by lia.
    simpl. rewrite Nat2Z.id in H.
    pose proof (add_pfparticle_cases evt m i) as Hc.
    destruct (add_pfparticle evt m i) as [m'|e]; simpl; [|by injection H].
    destruct Hc as (Hin & _).
    assert (∀ j, j < S i → pfparticle_in_range evt j) as Hr'.
    { intros j Hj. destruct (decide (j = i)) as [->|]; [done|]. apply Hr. lia. }
    destruct (decide (Z.of_nat i = UINT_MAX)) as [Hmax|Hmax].
    + rewrite first_loop_never_returns in H; [done| | |apply to_uint_range].
      * unfold fits_uint. lia.
      * intros j Hj. apply Hr'. lia.
    + rewrite to_uint_small in H by lia.
      replace (Z.of_nat i + 1)%Z with (Z.of_nat (S i)) in H by lia.
      apply (IH (S i) m' H); [lia|lia|done].
  - replace (length (product (pfParticleHandle evt)) - i) with 0 by lia.
    simpl. by injection H.
Qed.

Lemma first_loop_sound fuel r :
  first_loop evt fuel 0 ∅ = Some r → hitToPFParticlesMap evt = r.
Proof.
  intros H. unfold hitToPFParticlesMap.
  rewrite <- (Nat.sub_0_r (length (product (pfParticleHandle evt)))).
  apply (first_loop_sound_from fuel 0 ∅ r H); [lia|unfold UINT_MAX; lia|].
  intros j Hj. lia.
Qed.

Lemma analyze_scan_and_report :
  analyze evt =
  match hitToPFParticlesMap evt with
  | Throw e => mkOutcome [] (Throw e)
  | Ok m => scan_and_report evt m
  end.
Proof. reflexivity. Qed.

(** Whenever [analyze] of the source returns or throws, it does so as
    [analyze] says, whatever the size of the PFParticle collection. *)
Lemma analyze_source_sound fuel o :
  analyze_source evt fuel = Some o → o = analyze evt.
Proof.
  unfold analyze_source. rewrite analyze_scan_and_report.
  destruct (first_loop evt fuel 0 ∅) as [r|] eqn:E; [|done].
  apply first_loop_sound in E. rewrite E.
  destruct r; by intros [= <-].
Qed.

(** On a PFParticle collection that fits [unsigned int], [analyze] of the
    source ends, and ends as [analyze] says. *)
Lemma analyze_source_fits fuel :
  fits_uint (length (product (pfParticleHandle evt))) →
  length (product (pfParticleHandle evt)) < fuel →
  analyze_source evt fuel = Some (analyze evt).
Proof.
  intros Hfit Hfuel. unfold analyze_source.
  rewrite (first_loop_fits fuel Hfit Hfuel), analyze_scan_and_report.
  by destruct (hitToPFParticlesMap evt).
Qed.


End SourceLoopAgrees.

Example first_loop_shared_hit :
  first_loop Scenarios.shared_hit 3 0 ∅ = Some (Ok Scenarios.shared_hit_map).
Proof. vm_compute. reflexivity. Qed.

Example first_loop_shared_hit_running :
  first_loop Scenarios.shared_hit 2 0 ∅ = None.
Proof. vm_compute. reflexivity. Qed.

Example analyze_source_shared_hit :
  analyze_source Scenarios.shared_hit 3 =
  Some (mkOutcome [HitLine 0 2; HitLine 1 1; SummaryLine 2 1]
                  (Throw MultiAssociationViolation)).
Proof. vm_compute. reflexivity. Qed.

(** ** The order of the input, beyond [UINT_MAX] PFParticles *)







